(** * The chat relay of [main.go]: connection registry, pending queues,
      delivery and the session handler

    The Go program keeps two process-wide maps, [connections] and
    [messageQueues], and serves every websocket client from
    [handleWebSocket], which calls [sendMessage] for queued and for freshly
    received messages.  This file embeds those functions as state-passing
    functions over a [World] (the two maps plus the trace of calls made to
    the outside), and settles the properties stated about them.

    What the program calls but does not define (encoding/json's field
    matching and [time.Time] text codec, the websocket write, the Mongo
    insert) is the interface [Outside].  Logging and the Prometheus counter
    do not influence control flow and are left out. *)

From stdpp Require Import gmap strings list fin_maps options.

Local Open Scope string_scope.
Local Open Scope list_scope.

(** ** Data model *)

(** [time.Time] is kept as an integer offset from the zero value
    [time.Time{}]; only the zero value and the text codec matter here. *)
Definition Time := Z.
Definition zeroTime : Time := 0%Z.

(** [type Message struct] (main.go, lines 19-24). *)
Record Message := mkMessage {
  Sender : string;
  Receiver : string;
  Content : string;
  Time_ : Time
}.

Global Instance Message_eq_dec : EqDecision Message.
Proof. solve_decision. Defined.

(** The zero value of [Message], what [var message Message] declares. *)
Definition zeroMessage : Message := mkMessage "" "" "" zeroTime.

(** A [*websocket.Conn] is a pointer; only its identity is used. *)
Definition Conn := nat.

(** JSON values as the decoder sees them.  Numbers keep their literal
    text. *)
#[local] Unset Elimination Schemes.
Inductive json :=
| JNull
| JBool (b : bool)
| JNumber (literal : string)
| JString (s : string)
| JArray (items : list json)
| JObject (members : list (string * json)).
#[local] Set Elimination Schemes.

(** The bytes returned by [conn.Read]: either they scan as JSON, or they
    do not ([json.Unmarshal] then returns a syntax error). *)
Inductive Payload :=
| Invalid (raw : string)
| Json (v : json).

(** Calls that leave the process, in the order they are made. *)
Inductive Event :=
| Write (conn : Conn) (frame : json) (ok : bool)   (* conn.Write, line 151 *)
| Insert (message : Message) (ok : bool)           (* collection.InsertOne, line 165 *)
| Close (conn : Conn).                             (* deferred conn.Close, line 82 *)

(** The collaborators outside the file.  [connWrite] and [insertOne] answer
    from the history of calls made so far, so any run of the deterministic
    program against any network and database is an instance. *)
Class Outside := {
  EqualFold : string → string → bool;       (* case-insensitive key match of encoding/json *)
  parseTime : string → option Time;         (* Time.UnmarshalJSON on a string literal *)
  formatTime : Time → option string;        (* Time.MarshalJSON *)
  connWrite : list Event → Conn → json → bool;
  insertOne : list Event → Message → bool
}.

(** The process state: the two global maps (main.go, lines 27-28) and the
    trace of outside calls. *)
Record World := mkWorld {
  connections : gmap string Conn;
  messageQueues : gmap string (list Message);
  trace : list Event
}.

(** [main] initialises both maps empty (lines 57-58). *)
Definition init : World := mkWorld ∅ ∅ [].

Definition setConnections (f : gmap string Conn → gmap string Conn) (w : World) : World :=
  mkWorld (f (connections w)) (messageQueues w) (trace w).

Definition setQueues (f : gmap string (list Message) → gmap string (list Message))
    (w : World) : World :=
  mkWorld (connections w) (f (messageQueues w)) (trace w).

Definition emit (e : Event) (w : World) : World :=
  mkWorld (connections w) (messageQueues w) (trace w ++ [e]).

(** [messageQueues[userID]] read as a Go expression: a missing key reads as
    the nil slice. *)
Definition queueOf (w : World) (userID : string) : list Message :=
  default [] (messageQueues w !! userID).

(** ** encoding/json for [Message] *)

Inductive Field := FSender | FReceiver | FContent | FTime.

Global Instance Field_eq_dec : EqDecision Field.
Proof. solve_decision. Defined.

(** The [json:"..."] tags of the struct. *)
Definition fieldName (f : Field) : string :=
  match f with
  | FSender => "sender"
  | FReceiver => "receiver"
  | FContent => "content"
  | FTime => "time"
  end.

Definition fields : list Field := [FSender; FReceiver; FContent; FTime].

Section Program.
Context `{Outside}.

(** The decoder resolves an object key to a struct field by exact name
    first and by case-insensitive match otherwise; a key that resolves to
    nothing is skipped. *)
Definition fieldOf (key : string) : option Field :=
  match list_find (λ f, fieldName f = key) fields with
  | Some (_, f) => Some f
  | None => snd <$> list_find (λ f, EqualFold (fieldName f) key = true) fields
  end.

(** Storing one JSON value into one field.  [null] leaves the field as it
    is; a string is stored (parsed, for the time); anything else is a type
    error. *)
Definition store (f : Field) (v : json) (m : Message) : option Message :=
  match v with
  | JNull => Some m
  | JString s =>
      match f with
      | FSender => Some (mkMessage s (Receiver m) (Content m) (Time_ m))
      | FReceiver => Some (mkMessage (Sender m) s (Content m) (Time_ m))
      | FContent => Some (mkMessage (Sender m) (Receiver m) s (Time_ m))
      | FTime => t ← parseTime s; Some (mkMessage (Sender m) (Receiver m) (Content m) t)
      end
  | _ => None
  end.

(** Decoding the members of an object in order into [m]. *)
Fixpoint decodeMembers (members : list (string * json)) (m : Message) : option Message :=
  match members with
  | [] => Some m
  | (key, v) :: rest =>
      match fieldOf key with
      | None => decodeMembers rest m
      | Some f => m' ← store f v m; decodeMembers rest m'
      end
  end.

(** [json.Unmarshal(msg, &message)] with [message] the zero value (lines
    110-111); [None] stands for a non-nil error.  After an error the loop
    does not look at [message], so what a failed decoding has stored is not
    kept. *)
Definition Unmarshal (p : Payload) : option Message :=
  match p with
  | Invalid _ => None
  | Json JNull => Some zeroMessage
  | Json (JObject members) => decodeMembers members zeroMessage
  | Json _ => None
  end.

(** The value can be stored into the field. *)
Definition fits (f : Field) (v : json) : bool :=
  match v with
  | JNull => true
  | JString s => match f with FTime => bool_decide (is_Some (parseTime s)) | _ => true end
  | _ => false
  end.

(** Some member of the object names a field and carries a value that does
    not fit it; a payload that is not JSON, or is JSON other than an object
    or [null], is rejected as a whole. *)
Definition rejected (p : Payload) : bool :=
  match p with
  | Invalid _ => true
  | Json JNull => false
  | Json (JObject members) =>
      existsb (λ kv, match fieldOf kv.1 with
                     | Some f => negb (fits f kv.2)
                     | None => false
                     end) members
  | Json _ => true
  end.

(** Some member of the object names the field [f]. *)
Definition names (f : Field) (members : list (string * json)) : bool :=
  existsb (λ kv, bool_decide (fieldOf kv.1 = Some f)) members.

(** The payload carries a value for the time: an object member that names
    the time field and is not [null]. *)
Definition suppliesTime (p : Payload) : bool :=
  match p with
  | Json (JObject members) =>
      existsb (λ kv, bool_decide (fieldOf kv.1 = Some FTime)
                     && negb (match kv.2 with JNull => true | _ => false end)) members
  | _ => false
  end.

(** The field of the message has the zero value of its type. *)
Definition isZero (f : Field) (m : Message) : Prop :=
  match f with
  | FSender => Sender m = ""
  | FReceiver => Receiver m = ""
  | FContent => Content m = ""
  | FTime => Time_ m = zeroTime
  end.

(** The field of [m'] is the field of [m]. *)
Definition sameField (f : Field) (m m' : Message) : Prop :=
  match f with
  | FSender => Sender m' = Sender m
  | FReceiver => Receiver m' = Receiver m
  | FContent => Content m' = Content m
  | FTime => Time_ m' = Time_ m
  end.

(** [json.Marshal(message)] (line 144): the four tagged fields in struct
    order; it fails when the time does not format.  Strings are taken as
    the text they hold, as they come out of [Unmarshal]. *)
Definition Marshal (m : Message) : option json :=
  t ← formatTime (Time_ m);
  Some (JObject [("sender", JString (Sender m)); ("receiver", JString (Receiver m));
                 ("content", JString (Content m)); ("time", JString t)]).

(** ** Delivery *)

(** [sendMessage] (lines 133-158). *)
Definition sendMessage (message : Message) (w : World) : World :=
  match connections w !! Receiver message with
  | None =>
      setQueues <[Receiver message := (queueOf w (Receiver message) ++ [message])]> w
  | Some conn =>
      match Marshal message with
      | None => w
      | Some msgBytes => emit (Write conn msgBytes (connWrite (trace w) conn msgBytes)) w
      end
  end.

(** [saveMessage] (lines 160-172); its error is only logged by the caller. *)
Definition saveMessage (message : Message) (w : World) : World :=
  emit (Insert message (insertOne (trace w) message)) w.

(** ** The session handler *)

(** The range loop of lines 94-96 over the slice found at its start. *)
Definition flush (queue : list Message) (w : World) : World :=
  foldl (λ acc msg, sendMessage msg acc) w queue.

(** Lines 92-98: bind the connection, send what is queued for the user,
    clear the queue. *)
Definition connect (userID : string) (conn : Conn) (w : World) : World :=
  let w1 := setConnections <[userID := conn]> w in
  let w2 := flush (queueOf w1 userID) w1 in
  setQueues <[userID := []]> w2.

(** One pass of the loop body after a successful read (lines 109-124):
    a frame that does not decode is skipped by [continue]. *)
Definition onFrame (p : Payload) (w : World) : World :=
  match Unmarshal p with
  | None => w
  | Some message => sendMessage message (saveMessage message w)
  end.

(** Line 128 and the deferred close of line 82. *)
Definition disconnect (userID : string) (conn : Conn) (w : World) : World :=
  emit (Close conn) (setConnections (delete userID) w).

(** What [conn.Read] returns to the loop. *)
Inductive Read :=
| Frame (p : Payload)
| ReadError.

(** Where the handler stands once the reads supplied so far are consumed:
    still blocked in [conn.Read], or returned. *)
Inductive Phase := Active | Closed.

(** The [for] loop of lines 101-125 against a script of reads. *)
Fixpoint readLoop (reads : list Read) (w : World) : Phase * World :=
  match reads with
  | [] => (Active, w)
  | ReadError :: _ => (Closed, w)
  | Frame p :: rest => readLoop rest (onFrame p w)
  end.

(** The goroutine of [handleWebSocket] (lines 72-129).  [accepted] is the
    result of [websocket.Accept]; [userID] is the [user_id] query
    parameter, empty when absent. *)
Definition handleWebSocket (accepted : option Conn) (userID : string)
    (reads : list Read) (w : World) : Phase * World :=
  match accepted with
  | None => (Closed, w)
  | Some conn =>
      if decide (userID = "") then (Closed, emit (Close conn) w)
      else
        match readLoop reads (connect userID conn w) with
        | (Active, w') => (Active, w')
        | (Closed, w') => (Closed, disconnect userID conn w')
        end
  end.

(** ** Several sessions

    Handlers of different clients take turns.  An [Action] is one handler
    running one stretch of its code without another handler in between:
    the connection phase (behind the check of line 86), one pass of the
    loop, or the exit.  [run] accepts every sequence of actions, also those
    no set of sessions produces (a [Receive] with no session in its loop);
    what holds of all sequences holds of the real runs in which handlers
    take turns.  Handlers whose statements alternate are the subject of
    [interleave] below. *)
Inductive Action :=
| Connect (userID : string) (conn : Conn)
| Receive (p : Payload)
| Disconnect (userID : string) (conn : Conn).

Definition step (w : World) (a : Action) : World :=
  match a with
  | Connect userID conn =>
      if decide (userID = "") then emit (Close conn) w else connect userID conn w
  | Receive p => onFrame p w
  | Disconnect userID conn => disconnect userID conn w
  end.

Definition run (acts : list Action) (w : World) : World := foldl step w acts.

(** ** Handlers that overlap

    The program takes no lock, so two handlers can also alternate statement
    by statement.  A [Thread] is the program point of one goroutine inside
    [sendMessage] or inside the connection phase, with what is left to do;
    one turn executes one statement. *)
Inductive Thread :=
| Finished
| AtLookup (message : Message) (next : Thread)             (* line 135 *)
| AtEnqueue (message : Message) (next : Thread)            (* line 138 *)
| AtWrite (conn : Conn) (message : Message) (next : Thread) (* lines 144-157 *)
| AtBind (userID : string) (conn : Conn)                   (* line 92 *)
| AtRange (userID : string)                                (* line 94, the range expression *)
| AtLoop (userID : string) (rest : list Message)           (* lines 94-96, next element or exit *)
| AtClear (userID : string).                               (* line 98 *)

Definition turn (t : Thread) (w : World) : Thread * World :=
  match t with
  | Finished => (Finished, w)
  | AtLookup message next =>
      match connections w !! Receiver message with
      | None => (AtEnqueue message next, w)
      | Some conn => (AtWrite conn message next, w)
      end
  | AtEnqueue message next =>
      (next, setQueues <[Receiver message := (queueOf w (Receiver message) ++ [message])]> w)
  | AtWrite conn message next =>
      (next, match Marshal message with
             | None => w
             | Some msgBytes =>
                 emit (Write conn msgBytes (connWrite (trace w) conn msgBytes)) w
             end)
  | AtBind userID conn => (AtRange userID, setConnections <[userID := conn]> w)
  | AtRange userID => (AtLoop userID (queueOf w userID), w)
  | AtLoop userID [] => (AtClear userID, w)
  | AtLoop userID (msg :: rest) => (AtLookup msg (AtLoop userID rest), w)
  | AtClear userID => (Finished, setQueues <[userID := []]> w)
  end.

(** [n] turns of one thread with no other thread in between. *)
Fixpoint alone (n : nat) (t : Thread) (w : World) : Thread * World :=
  match n with
  | 0 => (t, w)
  | S n' => alone n' (turn t w).1 (turn t w).2
  end.

(** The threads of a pool take turns as the schedule says; the schedule
    names the thread that moves. *)
Definition schedule (pool : list Thread * World) (i : nat) : list Thread * World :=
  match pool.1 !! i with
  | Some t => (<[i := (turn t pool.2).1]> pool.1, (turn t pool.2).2)
  | None => pool
  end.

Definition interleave (order : list nat) (pool : list Thread * World)
    : list Thread * World :=
  foldl schedule pool order.

(** The number of statements the connection phase executes from [w]. *)
Definition connectTurns (userID : string) (w : World) : nat :=
  4 + 3 * length (queueOf w userID).

(** ** Observations *)

(** The frames handed to [conn.Write] on [conn], and those it accepted. *)
Definition attempted (conn : Conn) (tr : list Event) : list json :=
  omap (λ e, match e with
             | Write c f _ => if decide (c = conn) then Some f else None
             | _ => None
             end) tr.

Definition delivered (conn : Conn) (tr : list Event) : list json :=
  omap (λ e, match e with
             | Write c f true => if decide (c = conn) then Some f else None
             | _ => None
             end) tr.

(** The event is not a write that the transport refused. *)
Definition notRefused (e : Event) : bool :=
  match e with
  | Write _ _ false => false
  | _ => true
  end.

(** The messages handed to the database. *)
Definition recorded (tr : list Event) : list Message :=
  omap (λ e, match e with Insert m _ => Some m | _ => None end) tr.

(** The events [w'] has beyond those of [w]. *)
Definition since (w w' : World) : list Event := drop (length (trace w)) (trace w').

(** One call wrote the message to a connection. *)
Definition immediateWrite (w w' : World) : Prop :=
  ∃ conn frame, trace w' = trace w ++ [Write conn frame true].

(** One call appended the message to its receiver's queue. *)
Definition queueAppend (m : Message) (w w' : World) : Prop :=
  messageQueues w' = <[Receiver m := (queueOf w (Receiver m) ++ [m])]> (messageQueues w).

(** What the range loop emits for [queue] when every message in it finds
    its receiver bound to [conn]: one write per message that encodes, each
    answered from the history it extends. *)
Fixpoint flushEvents (conn : Conn) (history : list Event) (queue : list Message)
    : list Event :=
  match queue with
  | [] => []
  | m :: rest =>
      match Marshal m with
      | None => flushEvents conn history rest
      | Some frame =>
          let e := Write conn frame (connWrite history conn frame) in
          e :: flushEvents conn (history ++ [e]) rest
      end
  end.

(** The messages addressed to [userID] among the frames that [acts]
    receive, in the order of receipt. *)
Definition addressedTo (userID : string) (acts : list Action) : list Message :=
  omap (λ a, match a with
             | Receive p =>
                 m ← Unmarshal p; if decide (Receiver m = userID) then Some m else None
             | _ => None
             end) acts.

(** No frame received in the course of [acts] from [w] is appended to the
    queue of [userID]: a frame addressed to the user finds the user bound. *)
Fixpoint noEnqueueFor (userID : string) (acts : list Action) (w : World) : Prop :=
  match acts with
  | [] => True
  | a :: rest =>
      match a with
      | Receive p =>
          match Unmarshal p with
          | Some m => Receiver m = userID → is_Some (connections w !! userID)
          | None => True
          end
      | _ => True
      end ∧ noEnqueueFor userID rest (step w a)
  end.

(** No write in [tr] carries a message addressed to [userID]. *)
Definition writesNothingFor (userID : string) (tr : list Event) : Prop :=
  ∀ conn frame ok m,
    Write conn frame ok ∈ tr → Marshal m = Some frame → Receiver m ≠ userID.

(** The worlds reached from the empty maps of [main] when handlers take
    turns, each action running with no other handler in between.  The
    program takes no lock: handlers whose statements alternate reach
    further worlds (see [interleave]), of which [reachable] says nothing. *)
Definition reachable (w : World) : Prop := ∃ acts, w = run acts init.

(** Every queued message sits under its own receiver. *)
Definition queuesSorted (w : World) : Prop :=
  ∀ userID queue, messageQueues w !! userID = Some queue →
    Forall (λ m, Receiver m = userID) queue.

End Program.

(** ** A small outside world for the examples

    ASCII case folding for keys, a time codec that knows the zero instant
    only (Go prints [time.Time{}] as [0001-01-01T00:00:00Z]), a database
    that accepts every insert, and a network given by [net].  The examples
    use lower-case ASCII keys and no time other than the zero value, where
    this world and the Go runtime agree. *)

Fixpoint lowerAscii (s : string) : string :=
  match s with
  | EmptyString => EmptyString
  | String c rest =>
      let n := Ascii.nat_of_ascii c in
      String (if bool_decide (65 ≤ n ≤ 90)%nat then Ascii.ascii_of_nat (n + 32) else c)
             (lowerAscii rest)
  end.

Definition zeroInstant : string := "0001-01-01T00:00:00Z".

Definition sampleOutside (net : list Event → Conn → json → bool) : Outside := {|
  EqualFold a b := bool_decide (lowerAscii a = lowerAscii b);
  parseTime s := if decide (s = zeroInstant) then Some zeroTime else None;
  formatTime t := if decide (t = zeroTime) then Some zeroInstant else None;
  connWrite := net;
  insertOne _ _ := true
|}.

(** Every write succeeds; every write fails; the write that comes after [n]
    earlier calls to the outside fails and every other write succeeds. *)
Definition healthy : Outside := sampleOutside (λ _ _ _, true).
Definition dead : Outside := sampleOutside (λ _ _ _, false).
Definition failingAt (n : nat) : Outside :=
  sampleOutside (λ history _ _, negb (bool_decide (length history = n))).

Definition hi : Message := mkMessage "bob" "alice" "hi" zeroTime.

(** A frame with the three text fields and no time. *)
Definition text (sender receiver content : string) : Payload :=
  Json (JObject [("sender", JString sender); ("receiver", JString receiver);
                 ("content", JString content)]).

(** bob connects and sends alice three messages while she is away. *)
Definition backlog : list Action :=
  [Connect "bob" 1; Receive (text "bob" "alice" "first");
   Receive (text "bob" "alice" "second"); Receive (text "bob" "alice" "third")].

Definition first : Message := mkMessage "bob" "alice" "first" zeroTime.
Definition second : Message := mkMessage "bob" "alice" "second" zeroTime.
Definition third : Message := mkMessage "bob" "alice" "third" zeroTime.

Definition junk : Payload := Invalid "{oops".

Definition sparse : Payload :=
  Json (JObject [("sender", JString "bob"); ("priority", JNumber "1")]).

Definition stray : Message := mkMessage "bob" "" "lost" zeroTime.

(** The frame of a message whose time is the zero value. *)
Definition frameOf (m : Message) : json :=
  JObject [("sender", JString (Sender m)); ("receiver", JString (Receiver m));
           ("content", JString (Content m)); ("time", JString zeroInstant)].

(** ** Further observations *)

(** The receiver named in a frame the program has written. *)
Definition frameReceiver (frame : json) : option string :=
  match frame with
  | JObject members =>
      match list_find (λ kv, kv.1 = "receiver") members with
      | Some (_, (_, JString r)) => Some r
      | _ => None
      end
  | _ => None
  end.

(** The frames handed to [conn.Write], on whatever connection, that name
    [userID] as their receiver. *)
Definition writtenFor (userID : string) (tr : list Event) : list json :=
  omap (λ e, match e with
             | Write _ f _ => if decide (frameReceiver f = Some userID) then Some f else None
             | _ => None
             end) tr.

(** Those of them that the connection accepted. *)
Definition deliveredFor (userID : string) (tr : list Event) : list json :=
  omap (λ e, match e with
             | Write _ f true => if decide (frameReceiver f = Some userID) then Some f else None
             | _ => None
             end) tr.

(** The connections closed, in order. *)
Definition closes (tr : list Event) : list Conn :=
  omap (λ e, match e with Close c => Some c | _ => None end) tr.

(** A user who is bound has nothing queued. *)
Definition boundMeansDrained (w : World) : Prop :=
  ∀ userID, is_Some (connections w !! userID) → queueOf w userID = [].

(** Some read of the script fails. *)
Definition readFails (rs : list Read) : bool :=
  existsb (λ r, match r with ReadError => true | Frame _ => false end) rs.

(** The text fields of a message. *)
Definition textField (f : Field) (m : Message) : option string :=
  match f with
  | FSender => Some (Sender m)
  | FReceiver => Some (Receiver m)
  | FContent => Some (Content m)
  | FTime => None
  end.

Section Ledger.
Context `{Outside}.

(** The messages that the frames received in [acts] decode to. *)
Definition decoded (acts : list Action) : list Message :=
  omap (λ a, match a with Receive p => Unmarshal p | _ => None end) acts.

(** Whatever is queued or was handed to a connection was handed to the
    database. *)
Definition audited (w : World) : Prop :=
  (∀ userID queue m, messageQueues w !! userID = Some queue → m ∈ queue →
     m ∈ recorded (trace w))
  ∧ (∀ conn frame ok, Write conn frame ok ∈ trace w →
       ∃ m, m ∈ recorded (trace w) ∧ Marshal m = Some frame).

(** ** One delivery beside one connection phase, statement by statement

    The thread has read the queue of [userID] at line 94 and has not yet
    cleared it at line 98. *)
Fixpoint ranging (userID : string) (t : Thread) : bool :=
  match t with
  | AtLoop u _ | AtClear u => bool_decide (u = userID)
  | AtLookup _ next | AtEnqueue _ next | AtWrite _ _ next => ranging userID next
  | _ => false
  end.

(** The thread is about to append to the queue of [userID] (line 138). *)
Definition appending (userID : string) (t : Thread) : bool :=
  match t with
  | AtEnqueue message _ => bool_decide (Receiver message = userID)
  | _ => false
  end.

(** At some turn of the schedule a thread appends to the queue of [userID]
    while a thread of the pool stands between its reading and its clearing
    of that queue. *)
Fixpoint lostAppend (userID : string) (order : list nat) (pool : list Thread * World)
    : bool :=
  match order with
  | [] => false
  | i :: rest =>
      match pool.1 !! i with
      | Some t => appending userID t && existsb (ranging userID) pool.1
      | None => false
      end || lostAppend userID rest (schedule pool i)
  end.

(** The program points of the connection phase of [userID] on [conn], with
    what the registry and the rest of the loop hold there. *)
Inductive handlerAt (userID : string) (conn : Conn) (w : World) : Thread → Prop :=
| handler_bind :
    connections w !! userID = None → handlerAt userID conn w (AtBind userID conn)
| handler_range :
    connections w !! userID = Some conn → handlerAt userID conn w (AtRange userID)
| handler_loop rest :
    connections w !! userID = Some conn →
    Forall (λ msg, Receiver msg = userID) rest →
    handlerAt userID conn w (AtLoop userID rest)
| handler_lookup msg rest :
    connections w !! userID = Some conn →
    Forall (λ msg, Receiver msg = userID) (msg :: rest) →
    handlerAt userID conn w (AtLookup msg (AtLoop userID rest))
| handler_write msg rest :
    connections w !! userID = Some conn →
    Forall (λ msg, Receiver msg = userID) (msg :: rest) →
    handlerAt userID conn w (AtWrite conn msg (AtLoop userID rest))
| handler_clear :
    connections w !! userID = Some conn → handlerAt userID conn w (AtClear userID)
| handler_done :
    connections w !! userID = Some conn → handlerAt userID conn w Finished.

(** The program points of [sendMessage] for [m]. *)
Inductive senderAt (conn : Conn) (m : Message) : Thread → Prop :=
| sender_lookup : senderAt conn m (AtLookup m Finished)
| sender_enqueue : senderAt conn m (AtEnqueue m Finished)
| sender_write : senderAt conn m (AtWrite conn m Finished)
| sender_done : senderAt conn m Finished.

(** The messages a thread of the connection phase will still write, or
    leaves in the queue when it has not read it or is done; the message a
    delivery still has to write or append. *)
Definition handlerOwes (userID : string) (t : Thread) (w : World) : list Message :=
  match t with
  | AtLoop _ rest => rest
  | AtLookup msg (AtLoop _ rest) | AtWrite _ msg (AtLoop _ rest) => msg :: rest
  | AtClear _ => []
  | _ => queueOf w userID
  end.

Definition senderOwes (t : Thread) : list Message :=
  match t with
  | AtLookup msg _ | AtEnqueue msg _ | AtWrite _ msg _ => [msg]
  | _ => []
  end.

(** The account of one delivery of [m] beside the connection phase of its
    receiver, started in [w0]: what has been handed to the connection and
    what is still owed make up the queue of [w0] and, unless its append was
    lost, [m]. *)
Definition accounted (userID : string) (conn : Conn) (m : Message) (w0 : World)
    (handler sender : Thread) (w : World) (lost : bool) : Prop :=
  handlerAt userID conn w handler
  ∧ senderAt conn m sender
  ∧ Forall (λ msg, Receiver msg = userID) (queueOf w userID)
  ∧ (lost = true → sender = Finished)
  ∧ ∃ events,
      trace w = trace w0 ++ events
      ∧ attempted conn events
          ++ omap Marshal (handlerOwes userID handler w)
          ++ omap Marshal (senderOwes sender)
        ≡ₚ omap Marshal (queueOf w0 userID)
             ++ (if lost then [] else omap Marshal [m]).

(** ** The request counter

    [requestsTotal] (lines 30-36) is a counter per pair of labels; line 69
    increments it before the goroutine of the handler starts, and
    [wg.Wait] (line 130) keeps the request open until that goroutine
    returns. *)
Definition Inc (labels : string * string) (counters : gmap (string * string) nat)
    : gmap (string * string) nat :=
  <[labels := S (default 0 (counters !! labels))]> counters.

(** One request to [/ws]: its HTTP method, what [websocket.Accept] makes
    of it, its [user_id] parameter and what its connection then reads. *)
Record Request := mkRequest {
  method : string;
  upgrade : option Conn;
  user_id : string;
  reads : list Read
}.

(** [handleWebSocket] as the HTTP server calls it (lines 68-131).  The
    requests are taken one after the other; the counters do not depend on
    how their goroutines overlap. *)
Definition serve (r : Request) (s : gmap (string * string) nat * World)
    : gmap (string * string) nat * World :=
  (Inc (method r, "200") s.1,
   (handleWebSocket (upgrade r) (user_id r) (reads r) s.2).2).

Definition serveAll (rs : list Request) (s : gmap (string * string) nat * World)
    : gmap (string * string) nat * World :=
  foldl (λ acc r, serve r acc) s rs.

End Ledger.

(** * Properties *)

Section Delivery.
Context `{Outside}.

Lemma queueOf_setQueues_insert userID queue w :
  queueOf (setQueues <[userID := queue]> w) userID = queue.
Proof. unfold queueOf; simpl. by rewrite lookup_insert_eq. Qed.

Lemma queueOf_setQueues_insert_ne userID other queue w :
  userID ≠ other →
  queueOf (setQueues <[userID := queue]> w) other = queueOf w other.
Proof. intros Hne. unfold queueOf; simpl. by rewrite lookup_insert_ne. Qed.

Lemma sendMessage_unbound m w :
  connections w !! Receiver m = None →
  sendMessage m w = setQueues <[Receiver m := (queueOf w (Receiver m) ++ [m])]> w.
Proof. intros Hnone. unfold sendMessage. by rewrite Hnone. Qed.

Lemma sendMessage_bound m w conn frame :
  connections w !! Receiver m = Some conn →
  Marshal m = Some frame →
  sendMessage m w = emit (Write conn frame (connWrite (trace w) conn frame)) w.
Proof. intros Hc Hf. unfold sendMessage. by rewrite Hc, Hf. Qed.

Lemma sendMessage_unencodable m w conn :
  connections w !! Receiver m = Some conn →
  Marshal m = None →
  sendMessage m w = w.
Proof. intros Hc Hf. unfold sendMessage. by rewrite Hc, Hf. Qed.

(** [sendMessage] never touches the registry. *)
Lemma sendMessage_connections m w :
  connections (sendMessage m w) = connections w.
Proof.
  unfold sendMessage.
  destruct (connections w !! Receiver m); [destruct (Marshal m)|]; done.
Qed.

(** An append changes the queue store. *)
Lemma queueAppend_changes m w w' :
  queueAppend m w w' → messageQueues w' ≠ messageQueues w.
Proof.
  unfold queueAppend. intros -> Heq.
  apply (f_equal (λ q, default [] (q !! Receiver m))) in Heq.
  rewrite lookup_insert_eq in Heq. simpl in Heq.
  apply (f_equal length) in Heq. unfold queueOf in Heq.
  rewrite length_app in Heq. simpl in Heq. lia.
Qed.

(** An immediate write extends the trace. *)
Lemma immediateWrite_changes w w' :
  immediateWrite w w' → trace w' ≠ trace w.
Proof.
  intros (conn & frame & ->) Heq. apply (f_equal length) in Heq.
  rewrite length_app in Heq. simpl in Heq. lia.
Qed.

(** *** Flushing a queue whose owner is bound *)

Lemma flush_cons m queue w : flush (m :: queue) w = flush queue (sendMessage m w).
Proof. reflexivity. Qed.

Lemma flush_app q1 q2 w : flush (q1 ++ q2) w = flush q2 (flush q1 w).
Proof. unfold flush. apply foldl_app. Qed.

Lemma flush_connections queue w : connections (flush queue w) = connections w.
Proof.
  revert w. induction queue as [|m queue IH]; intros w; [done|].
  rewrite flush_cons, IH. apply sendMessage_connections.
Qed.

Lemma flush_bound conn userID queue w :
  connections w !! userID = Some conn →
  Forall (λ m, Receiver m = userID) queue →
  flush queue w
  = mkWorld (connections w) (messageQueues w)
            (trace w ++ flushEvents conn (trace w) queue).
Proof.
  intros Hc Hq. revert w Hc.
  induction Hq as [|m queue Hm Hq IH]; intros w Hc.
  - simpl. rewrite app_nil_r. by destruct w.
  - rewrite flush_cons. subst userID. unfold sendMessage. rewrite Hc. simpl.
    destruct (Marshal m) as [frame|]; [|by apply IH].
    rewrite IH by done. simpl. by rewrite <- app_assoc.
Qed.

Lemma attempted_app conn t1 t2 :
  attempted conn (t1 ++ t2) = attempted conn t1 ++ attempted conn t2.
Proof. unfold attempted. apply omap_app. Qed.

Lemma delivered_app conn t1 t2 :
  delivered conn (t1 ++ t2) = delivered conn t1 ++ delivered conn t2.
Proof. unfold delivered. apply omap_app. Qed.

Lemma recorded_app t1 t2 : recorded (t1 ++ t2) = recorded t1 ++ recorded t2.
Proof. unfold recorded. apply omap_app. Qed.

(** A write is attempted for every message of the queue that encodes, in
    queue order, whatever the earlier writes returned. *)
Lemma attempted_flushEvents conn history queue :
  attempted conn (flushEvents conn history queue) = omap Marshal queue.
Proof.
  revert history. induction queue as [|m queue IH]; intros history; [done|].
  simpl. destruct (Marshal m) as [frame|]; [|apply IH].
  simpl. rewrite decide_True by done. f_equal. apply IH.
Qed.

Lemma attempted_other_flushEvents conn other history queue :
  other ≠ conn → attempted other (flushEvents conn history queue) = [].
Proof.
  intros Hne. revert history. induction queue as [|m queue IH]; intros history; [done|].
  simpl. destruct (Marshal m) as [frame|]; [|apply IH].
  simpl. rewrite decide_False by done. apply IH.
Qed.

Lemma recorded_flushEvents conn history queue :
  recorded (flushEvents conn history queue) = [].
Proof.
  revert history. induction queue as [|m queue IH]; intros history; [done|].
  simpl. destruct (Marshal m) as [frame|]; [|apply IH]. simpl. apply IH.
Qed.

Lemma since_app w w' events : trace w' = trace w ++ events → since w w' = events.
Proof. intros Htr. unfold since. by rewrite Htr, drop_app_length. Qed.

Lemma delivered_sublist conn tr : sublist (delivered conn tr) (attempted conn tr).
Proof.
  induction tr as [|e tr IH]; [done|].
  unfold delivered, attempted in *. simpl.
  destruct e as [c f [|]| |]; simpl; try done.
  - case_decide; [by constructor|done].
  - case_decide; [by constructor|done].
Qed.

Lemma queuesSorted_lookup w userID :
  queuesSorted w → Forall (λ m, Receiver m = userID) (queueOf w userID).
Proof.
  intros Hs. unfold queueOf.
  destruct (messageQueues w !! userID) as [queue|] eqn:Hq; simpl; [by eapply Hs|done].
Qed.

Lemma delivered_accepted conn tr :
  Forall (λ e, notRefused e = true) tr → delivered conn tr = attempted conn tr.
Proof.
  induction 1 as [|e tr He _ IH]; [done|].
  change (e :: tr) with ([e] ++ tr).
  rewrite delivered_app, attempted_app, IH. f_equal. by destruct e as [c f [|]| |].
Qed.

(** The connection phase in closed form. *)
Lemma connect_sorted userID conn w :
  queuesSorted w →
  connect userID conn w
  = mkWorld (<[userID := conn]> (connections w)) (<[userID := []]> (messageQueues w))
            (trace w ++ flushEvents conn (trace w) (queueOf w userID)).
Proof.
  intros Hs. unfold connect.
  rewrite (flush_bound conn userID).
  - done.
  - simpl. by rewrite lookup_insert_eq.
  - by apply queuesSorted_lookup.
Qed.

End Delivery.

(** ** Invariants of the reachable worlds *)

Section Invariants.
Context `{Outside}.

Lemma queuesSorted_insert userID queue w :
  queuesSorted w → Forall (λ m, Receiver m = userID) queue →
  queuesSorted (setQueues <[userID := queue]> w).
Proof.
  intros Hs Hq other q. simpl. rewrite lookup_insert.
  case_decide; [|apply Hs]. intros [= <-]. by subst.
Qed.

Lemma sendMessage_sorted m w : queuesSorted w → queuesSorted (sendMessage m w).
Proof.
  intros Hs. unfold sendMessage.
  destruct (connections w !! Receiver m); [by destruct (Marshal m)|].
  apply queuesSorted_insert; [done|].
  apply Forall_app. split; [by apply queuesSorted_lookup|by constructor].
Qed.

Lemma onFrame_sorted p w : queuesSorted w → queuesSorted (onFrame p w).
Proof.
  intros Hs. unfold onFrame. destruct (Unmarshal p); [|done].
  by apply sendMessage_sorted.
Qed.

Lemma connect_sorted_inv userID conn w :
  queuesSorted w → queuesSorted (connect userID conn w).
Proof.
  intros Hs. rewrite connect_sorted by done.
  intros other q. simpl. rewrite lookup_insert.
  case_decide; [by intros [= <-]|apply Hs].
Qed.

Lemma step_sorted a w : queuesSorted w → queuesSorted (step w a).
Proof.
  intros Hs. destruct a as [userID conn|p|userID conn]; simpl.
  - case_decide; [done|by apply connect_sorted_inv].
  - by apply onFrame_sorted.
  - done.
Qed.

Lemma run_app a1 a2 w : run (a1 ++ a2) w = run a2 (run a1 w).
Proof. unfold run. apply foldl_app. Qed.

Lemma run_sorted acts w : queuesSorted w → queuesSorted (run acts w).
Proof.
  revert w. induction acts as [|a acts IH]; intros w Hs; [done|].
  simpl. apply IH. by apply step_sorted.
Qed.

Lemma init_sorted : queuesSorted init.
Proof. intros userID queue. simpl. by rewrite lookup_empty. Qed.

Lemma reachable_sorted w : reachable w → queuesSorted w.
Proof. intros [acts ->]. apply run_sorted, init_sorted. Qed.

Lemma onFrame_connections p w : connections (onFrame p w) = connections w.
Proof.
  unfold onFrame. destruct (Unmarshal p); [|done].
  by rewrite sendMessage_connections.
Qed.

(** The empty user id is never bound: [connect] runs behind the check of
    line 86 only. *)
Lemma step_anonymous a w :
  connections w !! "" = None → connections (step w a) !! "" = None.
Proof.
  intros Hn. destruct a as [userID conn|p|userID conn]; simpl.
  - case_decide; [done|]. unfold connect. simpl.
    rewrite flush_connections. simpl. by rewrite lookup_insert_ne.
  - by rewrite onFrame_connections.
  - rewrite lookup_delete. by case_decide.
Qed.

Lemma run_anonymous acts w :
  connections w !! "" = None → connections (run acts w) !! "" = None.
Proof.
  revert w. induction acts as [|a acts IH]; intros w Hn; [done|].
  simpl. apply IH. by apply step_anonymous.
Qed.

Lemma reachable_anonymous w : reachable w → connections w !! "" = None.
Proof. intros [acts ->]. by apply run_anonymous. Qed.

Lemma reachable_run acts w : reachable w → reachable (run acts w).
Proof. intros [before ->]. exists (before ++ acts). by rewrite run_app. Qed.

End Invariants.

(** ** What one delivery does *)

Section OneDelivery.
Context `{Outside}.

(** C1 as amended. What [sendMessage] does in each of its three cases. With
    the receiver not bound it appends to the queue and writes nothing. With
    the receiver bound it leaves the queues alone, and it writes exactly
    when the message encodes and the transport accepts the frame. In no
    case does it both write and append, and the registry is never changed:
    after a failed write the message is not queued and the binding is still
    there. *)
Theorem sendMessage_at_most_one (m : Message) (w : World) :
  connections (sendMessage m w) = connections w
  ∧ ¬ (immediateWrite w (sendMessage m w) ∧ queueAppend m w (sendMessage m w))
  ∧ (connections w !! Receiver m = None →
       queueAppend m w (sendMessage m w) ∧ trace (sendMessage m w) = trace w)
  ∧ (∀ conn, connections w !! Receiver m = Some conn →
       messageQueues (sendMessage m w) = messageQueues w
       ∧ (immediateWrite w (sendMessage m w) ↔
            ∃ frame, Marshal m = Some frame ∧ connWrite (trace w) conn frame = true)
       ∧ (∀ frame, Marshal m = Some frame → connWrite (trace w) conn frame = false →
            sendMessage m w = emit (Write conn frame false) w)).
Proof.
  split; [apply sendMessage_connections|].
  split.
  - intros [Hw Ha]. apply immediateWrite_changes in Hw.
    apply queueAppend_changes in Ha.
    unfold sendMessage in *.
    destruct (connections w !! Receiver m); [destruct (Marshal m)|]; simpl in *; done.
  - split.
    + intros Hnone. rewrite (sendMessage_unbound _ _ Hnone). done.
    + intros conn Hc. split; [|split].
      * unfold sendMessage. rewrite Hc. by destruct (Marshal m).
      * split.
        -- intros (c & f & Htr). unfold sendMessage in Htr. rewrite Hc in Htr.
           destruct (Marshal m) as [frame|] eqn:Hm; simpl in Htr.
           ++ apply app_inv_head in Htr. exists frame. split; [done|]. congruence.
           ++ apply (f_equal length) in Htr. rewrite length_app in Htr.
              simpl in Htr. lia.
        -- intros (frame & Hm & Hok). rewrite (sendMessage_bound _ _ _ _ Hc Hm), Hok.
           by exists conn, frame.
      * intros frame Hm Hok. by rewrite (sendMessage_bound _ _ _ _ Hc Hm), Hok.
Qed.

End OneDelivery.

(** C1 fails on the code: alice is bound to connection 7 and the write
    fails; the message is not appended to her queue, her binding stays in
    the registry, and the call has neither written nor appended. *)
Lemma sendMessage_write_failure_drops :
  let w := @run dead [Connect "alice" 7] init in
  let w' := @sendMessage dead hi w in
  connections w !! "alice" = Some 7
  ∧ @connWrite dead (trace w) 7 (frameOf hi) = false
  ∧ w' = mkWorld {["alice" := 7]} {["alice" := []]} [Write 7 (frameOf hi) false]
  ∧ queueOf w' "alice" = []
  ∧ connections w' !! "alice" = Some 7
  ∧ ¬ immediateWrite w w'
  ∧ ¬ queueAppend hi w w'.
Proof.
  repeat split; try (vm_compute; reflexivity).
  - intros (c & f & Htr). vm_compute in Htr. congruence.
  - intros Ha. apply queueAppend_changes in Ha. apply Ha. vm_compute. reflexivity.
Qed.

Lemma sendMessage_at_most_one_witness :
  let w := @run dead [Connect "alice" 7] init in
  @sendMessage dead hi w = emit (Write 7 (frameOf hi) false) w
  ∧ messageQueues (@sendMessage dead hi w) = messageQueues w.
Proof.
  intros w.
  destruct (@sendMessage_at_most_one dead hi w) as (_ & _ & _ & Hbound).
  destruct (Hbound 7) as (Hq & _ & Hfail); [vm_compute; reflexivity|].
  split; [|exact Hq].
  apply Hfail; vm_compute; reflexivity.
Defined.

(** ** Queueing for a user who is away *)

Section Offline.
Context `{Outside}.

Lemma addressedTo_cons userID a acts :
  addressedTo userID (a :: acts) = addressedTo userID [a] ++ addressedTo userID acts.
Proof. change (a :: acts) with ([a] ++ acts). unfold addressedTo. apply omap_app. Qed.

Lemma sendMessage_queue_other m userID w :
  Receiver m ≠ userID → queueOf (sendMessage m w) userID = queueOf w userID.
Proof.
  intros Hne. unfold sendMessage.
  destruct (connections w !! Receiver m); [by destruct (Marshal m)|].
  by apply queueOf_setQueues_insert_ne.
Qed.

(** One action while [userID] is away: the user stays away and the queue
    grows at its tail by the message received for the user, if any. *)
Lemma step_offline userID a w :
  queuesSorted w → connections w !! userID = None →
  (userID = "" ∨ ∀ conn, a ≠ Connect userID conn) →
  connections (step w a) !! userID = None
  ∧ queueOf (step w a) userID = queueOf w userID ++ addressedTo userID [a].
Proof.
  intros Hs Hn Hc. destruct a as [other conn|p|other conn]; simpl.
  - rewrite app_nil_r. case_decide as Hanon; [done|].
    assert (other ≠ userID) as Hne.
    { intros ->. destruct Hc as [->|Hc]; [done|by apply (Hc conn)]. }
    rewrite connect_sorted by done. unfold queueOf. simpl.
    by rewrite !lookup_insert_ne.
  - rewrite onFrame_connections. split; [done|].
    unfold onFrame, addressedTo. simpl.
    destruct (Unmarshal p) as [m|]; simpl; [|by rewrite app_nil_r].
    case_decide as Hr; simpl.
    + subst userID. rewrite sendMessage_unbound by done.
      by rewrite queueOf_setQueues_insert.
    + rewrite app_nil_r. by rewrite sendMessage_queue_other.
  - rewrite app_nil_r. split; [|done].
    rewrite lookup_delete. by case_decide.
Qed.

Lemma run_offline userID acts w :
  queuesSorted w → connections w !! userID = None →
  (userID = "" ∨ Forall (λ a, ∀ conn, a ≠ Connect userID conn) acts) →
  connections (run acts w) !! userID = None
  ∧ queueOf (run acts w) userID = queueOf w userID ++ addressedTo userID acts.
Proof.
  revert w. induction acts as [|a acts IH]; intros w Hs Hn Hc.
  - simpl. by rewrite app_nil_r.
  - destruct (step_offline userID a w) as [Hn' Hq']; [done|done| |].
    { destruct Hc as [->|Hc]; [by left|right]. by inversion Hc. }
    destruct (IH (step w a)) as [Hn'' Hq'']; [by apply step_sorted|done| |].
    { destruct Hc as [->|Hc]; [by left|right]. by inversion Hc. }
    change (run (a :: acts) w) with (run acts (step w a)). split; [done|].
    rewrite Hq'', Hq', (addressedTo_cons userID a acts). by rewrite app_assoc.
Qed.

(** C3 as amended. [sendMessage] for a receiver without binding appends the
    message at the tail of the receiver's queue, creating it if absent.
    While the receiver stays away the queue grows by the messages received
    for the receiver, in the order of receipt. On the receiver's next
    connection a write on the new connection is attempted for every queued
    message that encodes, in queue order, while the queue still holds them,
    and the queue is empty afterwards. The frames that reach the connection
    are those whose write is accepted: all of them when no write is
    refused, and a subsequence otherwise. *)
Theorem offline_queue_in_order_then_flushed (userID : string) (acts : list Action)
    (conn : Conn) (w : World) :
  queuesSorted w → connections w !! userID = None →
  Forall (λ a, ∀ c, a ≠ Connect userID c) acts →
  (∀ m, Receiver m = userID →
     messageQueues (sendMessage m w)
     = <[userID := (queueOf w userID ++ [m])]> (messageQueues w))
  ∧ queueOf (run acts w) userID = queueOf w userID ++ addressedTo userID acts
  ∧ messageQueues (flush (queueOf (run acts w) userID)
                     (setConnections <[userID := conn]> (run acts w)))
    = messageQueues (run acts w)
  ∧ attempted conn (since (run acts w) (connect userID conn (run acts w)))
    = omap Marshal (queueOf (run acts w) userID)
  ∧ sublist (delivered conn (since (run acts w) (connect userID conn (run acts w))))
            (omap Marshal (queueOf (run acts w) userID))
  ∧ (Forall (λ e, notRefused e = true)
            (since (run acts w) (connect userID conn (run acts w))) →
     delivered conn (since (run acts w) (connect userID conn (run acts w)))
     = omap Marshal (queueOf (run acts w) userID))
  ∧ queueOf (connect userID conn (run acts w)) userID = [].
Proof.
  intros Hs Hn Hc.
  pose proof (run_sorted acts w Hs) as Hs'.
  destruct (run_offline userID acts w Hs Hn (or_intror Hc)) as [_ Hq].
  assert (attempted conn (since (run acts w) (connect userID conn (run acts w)))
          = omap Marshal (queueOf (run acts w) userID)) as Ha.
  { rewrite connect_sorted by done. erewrite since_app by done.
    apply attempted_flushEvents. }
  split; [|split; [done|split; [|split; [done|split; [|split]]]]].
  - intros m <-. by rewrite sendMessage_unbound.
  - rewrite (flush_bound conn userID); [done| |].
    + simpl. by rewrite lookup_insert_eq.
    + by apply (queuesSorted_lookup (run acts w)).
  - rewrite <- Ha. apply delivered_sublist.
  - intros Hok. rewrite <- Ha. by apply delivered_accepted.
  - rewrite connect_sorted by done. unfold queueOf. simpl.
    by rewrite lookup_insert_eq.
Qed.

End Offline.

(** C3 fails on the code: alice's three queued messages are handed to a
    connection that refuses every write; none of them is written to it,
    and her queue is cleared all the same. *)
Lemma queued_messages_not_written :
  let w := @run dead backlog init in
  let w' := @step dead w (Connect "alice" 7) in
  queueOf w "alice" = [first; second; third]
  ∧ connections w !! "alice" = None
  ∧ delivered 7 (trace w') = []
  ∧ queueOf w' "alice" = [].
Proof. repeat split; vm_compute; reflexivity. Qed.

Lemma offline_queue_in_order_then_flushed_witness :
  let w := @run healthy (drop 1 backlog) (@run healthy (take 1 backlog) init) in
  queueOf w "alice" = [first; second; third]
  ∧ delivered 7 (since w (@connect healthy "alice" 7 w))
    = [frameOf first; frameOf second; frameOf third]
  ∧ queueOf (@connect healthy "alice" 7 w) "alice" = [].
Proof.
  destruct (@offline_queue_in_order_then_flushed healthy "alice" (drop 1 backlog) 7
              (@run healthy (take 1 backlog) init))
    as (_ & Hq & _ & _ & _ & Hd & He).
  - apply (@reachable_sorted healthy). by exists (take 1 backlog).
  - vm_compute. reflexivity.
  - repeat constructor; discriminate.
  - split; [rewrite Hq; vm_compute; reflexivity|]. split; [|exact He].
    rewrite Hd; [vm_compute; reflexivity|].
    vm_compute. repeat constructor.
Defined.

(** ** Flush on connect *)

Section Flush.
Context `{Outside}.

(** C2 as amended. A failed write does not stop the flush and nothing is put
    back in the queue: a write is attempted for every queued message that
    encodes, in queue order and whatever the earlier writes returned, no
    other connection is written to, and afterwards the user's queue is
    empty and all other queues are as before. *)
Theorem connect_flush_never_aborts (userID : string) (conn : Conn) (w : World) :
  queuesSorted w →
  attempted conn (since w (connect userID conn w)) = omap Marshal (queueOf w userID)
  ∧ (∀ other, other ≠ conn → attempted other (since w (connect userID conn w)) = [])
  ∧ messageQueues (connect userID conn w) = <[userID := []]> (messageQueues w)
  ∧ queueOf (connect userID conn w) userID = [].
Proof.
  intros Hs. rewrite connect_sorted by done.
  rewrite (since_app _ _ (flushEvents conn (trace w) (queueOf w userID))) by done.
  split; [apply attempted_flushEvents|].
  split; [intros other Hne; by apply attempted_other_flushEvents|].
  split; [done|].
  unfold queueOf. simpl. by rewrite lookup_insert_eq.
Qed.

End Flush.

(** C2 fails on the code: alice has three messages queued and the second
    write of her flush fails. The third write is attempted all the same,
    and her queue ends up empty instead of holding the second and third
    message. *)
Lemma flush_continues_after_failed_write :
  let w := @run (failingAt 4) backlog init in
  let w' := @step (failingAt 4) w (Connect "alice" 7) in
  queueOf w "alice" = [first; second; third]
  ∧ since w w' = [Write 7 (frameOf first) true; Write 7 (frameOf second) false;
                  Write 7 (frameOf third) true]
  ∧ queueOf w' "alice" = []
  ∧ queueOf w' "alice" ≠ [second; third].
Proof. repeat split; try (vm_compute; reflexivity). vm_compute. discriminate. Qed.

Lemma connect_flush_never_aborts_witness :
  let w := @run (failingAt 4) backlog init in
  attempted 7 (since w (@connect (failingAt 4) "alice" 7 w))
  = [frameOf first; frameOf second; frameOf third]
  ∧ queueOf (@connect (failingAt 4) "alice" 7 w) "alice" = [].
Proof.
  intros w.
  destruct (@connect_flush_never_aborts (failingAt 4) "alice" 7 w) as (Ha & _ & _ & Hq).
  - apply (@reachable_sorted (failingAt 4)). by exists backlog.
  - split; [|exact Hq]. rewrite Ha. vm_compute. reflexivity.
Defined.

(** ** Reconnecting *)

Section Reconnect.
Context `{Outside}.

Lemma sendMessage_queue_bound_eq m userID w :
  is_Some (connections w !! Receiver m) →
  queueOf (sendMessage m w) userID = queueOf w userID.
Proof.
  intros [conn Hc]. unfold sendMessage. rewrite Hc. by destruct (Marshal m).
Qed.

Lemma sendMessage_queues_bound m w :
  is_Some (connections w !! Receiver m) →
  messageQueues (sendMessage m w) = messageQueues w.
Proof. intros [conn Hc]. unfold sendMessage. rewrite Hc. by destruct (Marshal m). Qed.

Lemma step_drained userID a w :
  queuesSorted w → queueOf w userID = [] → noEnqueueFor userID [a] w →
  queueOf (step w a) userID = [].
Proof.
  intros Hs Hq [Ha _]. destruct a as [other conn|p|other conn]; simpl; [|clear Hs|done].
  - case_decide; [done|]. rewrite connect_sorted by done.
    unfold queueOf in *. simpl. rewrite lookup_insert. by case_decide.
  - unfold onFrame. destruct (Unmarshal p) as [m|]; [|done].
    destruct (decide (Receiver m = userID)) as [Hr|Hr].
    + unfold queueOf in *. rewrite sendMessage_queues_bound; [done|].
      simpl. rewrite Hr. by apply Ha.
    + by rewrite sendMessage_queue_other.
Qed.

Lemma run_drained userID acts w :
  queuesSorted w → queueOf w userID = [] → noEnqueueFor userID acts w →
  queueOf (run acts w) userID = [].
Proof.
  revert w. induction acts as [|a acts IH]; intros w Hs Hq Hquiet; [done|].
  destruct Hquiet as [Ha Hrest].
  change (run (a :: acts) w) with (run acts (step w a)).
  apply IH; [by apply step_sorted| |done].
  apply step_drained; [done|done|]. by split.
Qed.

(** C4. Once a connection of the user has run its flush, another connection
    of the same user with no enqueue for the user in between finds the
    queue empty: it attempts no write at all, so reconnecting delivers
    nothing a second time. *)
Theorem reconnect_flushes_nothing (userID : string) (conn again : Conn)
    (acts : list Action) (w : World) :
  queuesSorted w →
  noEnqueueFor userID acts (connect userID conn w) →
  queueOf (run acts (connect userID conn w)) userID = []
  ∧ flush (queueOf (run acts (connect userID conn w)) userID)
          (setConnections <[userID := again]> (run acts (connect userID conn w)))
    = setConnections <[userID := again]> (run acts (connect userID conn w))
  ∧ trace (connect userID again (run acts (connect userID conn w)))
    = trace (run acts (connect userID conn w)).
Proof.
  intros Hs Hquiet.
  assert (queueOf (run acts (connect userID conn w)) userID = []) as Hq.
  { apply run_drained; [by apply connect_sorted_inv| |done].
    rewrite connect_sorted by done. unfold queueOf. simpl.
    by rewrite lookup_insert_eq. }
  split; [done|]. split; [by rewrite Hq|].
  unfold connect at 1. simpl.
  replace (queueOf (setConnections <[userID := again]> (run acts (connect userID conn w)))
             userID) with (@nil Message); done.
Qed.

End Reconnect.

(** alice drains her queue, is sent one more message while she is
    connected, answers bob, leaves and comes back: the second flush is
    empty. *)
Lemma reconnect_flushes_nothing_witness :
  let w := @run healthy backlog init in
  let w1 := @run healthy [Receive (text "bob" "alice" "again");
                          Receive (text "alice" "bob" "back"); Disconnect "alice" 7]
              (@connect healthy "alice" 7 w) in
  queueOf w "alice" = [first; second; third]
  ∧ queueOf w1 "alice" = []
  ∧ trace (@connect healthy "alice" 8 w1) = trace w1.
Proof.
  destruct (@reconnect_flushes_nothing healthy "alice" 7 8
              [Receive (text "bob" "alice" "again");
               Receive (text "alice" "bob" "back"); Disconnect "alice" 7]
              (@run healthy backlog init)) as (Hq & _ & Htr).
  - apply (@reachable_sorted healthy). by exists backlog.
  - split; [|split; [|split; [exact I|exact I]]].
    + intros _. exists 7. vm_compute. reflexivity.
    + vm_compute. discriminate.
  - split; [vm_compute; reflexivity|]. split; [exact Hq|exact Htr].
Defined.

(** ** The read loop *)

Section Session.
Context `{Outside}.

Lemma readLoop_skip p before after w :
  Unmarshal p = None →
  readLoop (before ++ Frame p :: after) w = readLoop (before ++ after) w.
Proof.
  intros Hp. revert w. induction before as [|r before IH]; intros w; simpl.
  - unfold onFrame. by rewrite Hp.
  - destruct r; [apply IH|done].
Qed.

(** A session that is accepted with a user id and reads frames until a
    read fails is one [Connect], one [Receive] per frame and one
    [Disconnect]. *)
Lemma readLoop_frames frames w :
  readLoop (Frame <$> frames) w = (Active, run (Receive <$> frames) w).
Proof. revert w. induction frames as [|p frames IH]; intros w; [done|apply IH]. Qed.

Lemma readLoop_frames_error frames rest w :
  readLoop ((Frame <$> frames) ++ ReadError :: rest) w
  = (Closed, run (Receive <$> frames) w).
Proof. revert w. induction frames as [|p frames IH]; intros w; [done|apply IH]. Qed.

Lemma handleWebSocket_run userID conn frames rest w :
  userID ≠ "" →
  handleWebSocket (Some conn) userID ((Frame <$> frames) ++ ReadError :: rest) w
  = (Closed, run (Connect userID conn :: (Receive <$> frames)
                    ++ [Disconnect userID conn]) w).
Proof.
  intros Hu. unfold handleWebSocket. rewrite decide_False by done.
  rewrite readLoop_frames_error.
  change (run (Connect userID conn :: (Receive <$> frames) ++ [Disconnect userID conn]) w)
    with (run ((Receive <$> frames) ++ [Disconnect userID conn])
              (step w (Connect userID conn))).
  rewrite run_app. simpl. by rewrite decide_False.
Qed.

(** C7. A frame that does not decode leaves the world as it is: nothing is
    handed to the database, nothing is written and nothing is queued. The
    loop goes on with the next read, so the session behaves as if the frame
    had not been sent, and a frame that decodes after it is saved and
    delivered as usual. *)
Theorem undecodable_frame_is_skipped (p : Payload) :
  Unmarshal p = None →
  (∀ w, onFrame p w = w)
  ∧ (∀ rest w, readLoop (Frame p :: rest) w = readLoop rest w)
  ∧ (∀ w, readLoop [Frame p] w = (Active, w))
  ∧ (∀ next m w, Unmarshal next = Some m →
       readLoop [Frame p; Frame next] w = (Active, sendMessage m (saveMessage m w)))
  ∧ (∀ accepted userID before after w,
       handleWebSocket accepted userID (before ++ Frame p :: after) w
       = handleWebSocket accepted userID (before ++ after) w).
Proof.
  intros Hp.
  assert (∀ w, onFrame p w = w) as Hskip by (intros w; unfold onFrame; by rewrite Hp).
  split; [done|]. split; [|split; [|split]].
  - intros rest w. simpl. by rewrite Hskip.
  - intros w. simpl. by rewrite Hskip.
  - intros next m w Hm. simpl. rewrite Hskip. unfold onFrame. by rewrite Hm.
  - intros accepted userID before after w. unfold handleWebSocket.
    destruct accepted as [conn|]; [|done]. case_decide; [done|].
    by rewrite readLoop_skip.
Qed.

(** C8. A handshake without user id ends the session at once. The registry
    and the queue store are what they were, the only call to the outside is
    the close of the accepted connection, and none of the frames the client
    sends is read. *)
Theorem missing_user_id_changes_nothing (accepted : option Conn) (reads : list Read)
    (w : World) :
  fst (handleWebSocket accepted "" reads w) = Closed
  ∧ connections (snd (handleWebSocket accepted "" reads w)) = connections w
  ∧ messageQueues (snd (handleWebSocket accepted "" reads w)) = messageQueues w
  ∧ since w (snd (handleWebSocket accepted "" reads w))
    = match accepted with Some conn => [Close conn] | None => [] end
  ∧ handleWebSocket accepted "" reads w = handleWebSocket accepted "" [] w.
Proof.
  unfold handleWebSocket. destruct accepted as [conn|]; simpl.
  - repeat split; try done. by apply since_app.
  - repeat split; try done. apply since_app. by rewrite app_nil_r.
Qed.

End Session.

Lemma undecodable_frame_is_skipped_witness :
  @Unmarshal healthy junk = None
  ∧ @readLoop healthy [Frame junk; Frame (text "bob" "alice" "hi")] init
    = (Active, @sendMessage healthy hi (@saveMessage healthy hi init)).
Proof.
  split; [vm_compute; reflexivity|].
  destruct (@undecodable_frame_is_skipped healthy junk) as (_ & _ & _ & Hnext & _).
  - vm_compute. reflexivity.
  - apply Hnext. vm_compute. reflexivity.
Defined.

(** ** Messages addressed to the empty user id *)

Section Anonymous.
Context `{Outside}.

Lemma Marshal_receiver m m' frame :
  Marshal m = Some frame → Marshal m' = Some frame → Receiver m = Receiver m'.
Proof.
  unfold Marshal. intros Hm Hm'.
  destruct (formatTime (Time_ m)); [|done].
  destruct (formatTime (Time_ m')); [|done].
  simpl in *. congruence.
Qed.

Lemma writesNothingFor_emit userID e tr :
  writesNothingFor userID tr →
  (∀ conn frame ok m, e = Write conn frame ok → Marshal m = Some frame →
     Receiver m ≠ userID) →
  writesNothingFor userID (tr ++ [e]).
Proof.
  intros Htr He conn frame ok m Hin Hm.
  apply elem_of_app in Hin as [Hin|Hin]; [by eapply Htr|].
  apply list_elem_of_singleton in Hin. by eapply He.
Qed.

Lemma sendMessage_writesNothingFor userID m w :
  connections w !! userID = None →
  writesNothingFor userID (trace w) →
  writesNothingFor userID (trace (sendMessage m w)).
Proof.
  intros Hn Htr. unfold sendMessage.
  destruct (connections w !! Receiver m) as [conn|] eqn:Hc; [|done].
  destruct (Marshal m) as [frame|] eqn:Hm; [|done].
  simpl. apply writesNothingFor_emit; [done|].
  intros c f ok m' [= -> -> _] Hm' Hr.
  rewrite (Marshal_receiver _ _ _ Hm Hm'), Hr, Hn in Hc. done.
Qed.

Lemma flush_writesNothingFor userID queue w :
  connections w !! userID = None →
  writesNothingFor userID (trace w) →
  writesNothingFor userID (trace (flush queue w)).
Proof.
  revert w. induction queue as [|m queue IH]; intros w Hn Htr; [done|].
  rewrite flush_cons. apply IH.
  - by rewrite sendMessage_connections.
  - by apply sendMessage_writesNothingFor.
Qed.

Lemma step_writesNothingFor a w :
  connections w !! "" = None →
  writesNothingFor "" (trace w) →
  writesNothingFor "" (trace (step w a)).
Proof.
  intros Hn Htr. destruct a as [userID conn|p|userID conn]; simpl.
  - case_decide.
    + apply writesNothingFor_emit; [done|]. by intros.
    + unfold connect. simpl. apply flush_writesNothingFor; [|done].
      simpl. by rewrite lookup_insert_ne.
  - unfold onFrame. destruct (Unmarshal p) as [m|]; [|done].
    apply sendMessage_writesNothingFor; [done|].
    simpl. apply writesNothingFor_emit; [done|]. by intros.
  - apply writesNothingFor_emit; [done|]. by intros.
Qed.

Lemma run_writesNothingFor acts w :
  connections w !! "" = None →
  writesNothingFor "" (trace w) →
  writesNothingFor "" (trace (run acts w)).
Proof.
  revert w. induction acts as [|a acts IH]; intros w Hn Htr; [done|].
  change (run (a :: acts) w) with (run acts (step w a)).
  apply IH; [by apply step_anonymous|by apply step_writesNothingFor].
Qed.

Lemma reachable_writesNothingFor w : reachable w → writesNothingFor "" (trace w).
Proof.
  intros [acts ->]. apply run_writesNothingFor; [done|].
  intros conn frame ok m Hin. by apply elem_of_nil in Hin.
Qed.

(** C10. In a reachable world a message with the empty receiver is appended
    to the queue kept under the empty key. Whatever the handlers do
    afterwards, the empty user id is never bound, the queue under the empty
    key only grows at its tail, and no write ever carries a message with
    the empty receiver: the message stays queued for good. *)
Theorem empty_receiver_queued_forever (m : Message) (acts : list Action) (w : World) :
  reachable w → Receiver m = "" →
  sendMessage m w = setQueues <["" := (queueOf w "" ++ [m])]> w
  ∧ connections (run acts (sendMessage m w)) !! "" = None
  ∧ queueOf (run acts (sendMessage m w)) ""
    = queueOf w "" ++ [m] ++ addressedTo "" acts
  ∧ writesNothingFor "" (trace (run acts (sendMessage m w))).
Proof.
  intros Hw Hr.
  pose proof (reachable_anonymous w Hw) as Hn.
  pose proof (reachable_sorted w Hw) as Hs.
  assert (sendMessage m w = setQueues <["" := (queueOf w "" ++ [m])]> w) as Hsend.
  { rewrite sendMessage_unbound by (by rewrite Hr). by rewrite Hr. }
  split; [done|].
  destruct (run_offline "" acts (sendMessage m w)) as [Hn' Hq'].
  - by apply sendMessage_sorted.
  - by rewrite sendMessage_connections.
  - by left.
  - split; [done|]. split.
    + rewrite Hq', Hsend, queueOf_setQueues_insert. by rewrite <- app_assoc.
    + apply run_writesNothingFor; [by rewrite sendMessage_connections|].
      apply sendMessage_writesNothingFor; [done|].
      by apply reachable_writesNothingFor.
Qed.

End Anonymous.

Lemma empty_receiver_queued_forever_witness :
  let w := @run healthy backlog init in
  queueOf (@run healthy [Connect "" 9; Connect "alice" 7] (@sendMessage healthy stray w)) ""
  = [stray]
  ∧ @writesNothingFor healthy ""
      (trace (@run healthy [Connect "" 9; Connect "alice" 7] (@sendMessage healthy stray w))).
Proof.
  intros w.
  destruct (@empty_receiver_queued_forever healthy stray [Connect "" 9; Connect "alice" 7] w)
    as (_ & _ & Hq & Hw).
  - by exists backlog.
  - reflexivity.
  - split; [|exact Hw]. rewrite Hq. vm_compute. reflexivity.
Defined.

(** ** Decoding inbound frames *)

Section Decoding.
Context `{Outside}.

Lemma store_fits f v m : store f v m = None ↔ fits f v = false.
Proof.
  destruct v as [|b|n|s|items|members]; simpl; try done.
  destruct f; simpl; try done.
  destruct (parseTime s) as [t|] eqn:Ht.
  - rewrite bool_decide_eq_true_2 by done. done.
  - rewrite bool_decide_eq_false_2; [done|]. by intros [t Ht'].
Qed.

Lemma store_other_field f g v m m' :
  store f v m = Some m' → f ≠ g → sameField g m m'.
Proof.
  destruct v as [|b|n|s|items|members]; simpl; try done.
  - intros [= <-] _. by destruct g.
  - destruct f; simpl.
    + intros [= <-] Hne. by destruct g.
    + intros [= <-] Hne. by destruct g.
    + intros [= <-] Hne. by destruct g.
    + destruct (parseTime s); simpl; [|done]. intros [= <-] Hne. by destruct g.
Qed.

Lemma store_null f m m' g : store f JNull m = Some m' → sameField g m m'.
Proof. simpl. intros [= <-]. by destruct g. Qed.

Lemma sameField_trans g m1 m2 m3 :
  sameField g m1 m2 → sameField g m2 m3 → sameField g m1 m3.
Proof. destruct g; simpl; congruence. Qed.

Lemma decodeMembers_rejected members m :
  decodeMembers members m = None
  ↔ existsb (λ kv, match fieldOf kv.1 with
                   | Some f => negb (fits f kv.2)
                   | None => false
                   end) members = true.
Proof.
  revert m. induction members as [|[key v] members IH]; intros m; simpl; [done|].
  destruct (fieldOf key) as [f|]; simpl; [|apply IH].
  destruct (store f v m) as [m'|] eqn:Hst; simpl.
  - assert (fits f v = true) as ->.
    { destruct (fits f v) eqn:Hf; [done|]. apply store_fits with (m := m) in Hf. congruence. }
    simpl. apply IH.
  - apply store_fits in Hst. by rewrite Hst.
Qed.

(** A key that names no field is skipped. *)
Lemma decodeMembers_unknown before key v after m :
  fieldOf key = None →
  decodeMembers (before ++ (key, v) :: after) m = decodeMembers (before ++ after) m.
Proof.
  intros Hk. revert m. induction before as [|[k x] before IH]; intros m; simpl.
  - by rewrite Hk.
  - destruct (fieldOf k) as [f|]; [|apply IH].
    destruct (store f x m) as [m'|]; simpl; [apply IH|done].
Qed.

(** A field that no member names keeps the value it had. *)
Lemma decodeMembers_unnamed g members m m' :
  decodeMembers members m = Some m' → names g members = false → sameField g m m'.
Proof.
  revert m. induction members as [|[key v] members IH]; intros m; simpl.
  - intros [= <-] _. by destruct g.
  - intros Hd Hn. apply orb_false_iff in Hn as [Hk Hn].
    apply bool_decide_eq_false in Hk.
    destruct (fieldOf key) as [f|]; [|by apply IH].
    destruct (store f v m) as [m1|] eqn:Hst; simpl in Hd; [|done].
    apply (sameField_trans g m m1 m'); [|by apply IH].
    eapply store_other_field; [done|]. congruence.
Qed.

(** The time keeps its value when no member supplies one. *)
Lemma decodeMembers_time members m m' :
  decodeMembers members m = Some m' →
  suppliesTime (Json (JObject members)) = false →
  Time_ m' = Time_ m.
Proof.
  revert m. induction members as [|[key v] members IH]; intros m; simpl.
  - by intros [= <-] _.
  - intros Hd Hn. apply orb_false_iff in Hn as [Hk Hn].
    destruct (fieldOf key) as [f|]; [|by apply IH].
    destruct (store f v m) as [m1|] eqn:Hst; simpl in Hd; [|done].
    rewrite (IH m1 Hd Hn).
    destruct (decide (f = FTime)) as [->|Hf].
    + rewrite bool_decide_eq_true_2 in Hk by done. simpl in Hk.
      destruct v; try done. by apply (store_null FTime m m1 FTime).
    + by apply (store_other_field f FTime v m m1).
Qed.

(** C5 as amended. A frame that decodes and supplies no time yields a
    message whose time is the zero value of [time.Time]; this message, with
    the zero time, is what the loop saves and sends. Nothing assigns the
    time of receipt. *)
Theorem missing_time_stays_zero (p : Payload) (m : Message) (w : World) :
  Unmarshal p = Some m → suppliesTime p = false →
  Time_ m = zeroTime
  ∧ onFrame p w = sendMessage m (saveMessage m w)
  ∧ recorded (since w (onFrame p w)) = [m].
Proof.
  intros Hp Hn.
  assert (Time_ m = zeroTime) as Ht.
  { destruct p as [raw|v]; [done|].
    destruct v as [|b|n|s|items|members]; try done.
    - simpl in Hp. by injection Hp as <-.
    - apply (decodeMembers_time members zeroMessage m); [exact Hp|exact Hn]. }
  assert (onFrame p w = sendMessage m (saveMessage m w)) as Hf.
  { unfold onFrame. by rewrite Hp. }
  split; [done|]. split; [done|]. rewrite Hf.
  unfold sendMessage, since.
  destruct (connections (saveMessage m w) !! Receiver m); [destruct (Marshal m)|];
    simpl; rewrite <- ?app_assoc, drop_app_length; done.
Qed.

(** C6 as amended. Decoding fails exactly when the frame is not JSON, is
    JSON other than an object or [null], or has a member that names a field
    with a value that does not fit it. A member whose key names no field is
    skipped, and a field that no member names keeps its zero value; the
    empty object decodes to the zero message. *)
Theorem decode_ignores_unknown_and_missing :
  (∀ p, Unmarshal p = None ↔ rejected p = true)
  ∧ (∀ before key v after, fieldOf key = None →
       Unmarshal (Json (JObject (before ++ (key, v) :: after)))
       = Unmarshal (Json (JObject (before ++ after))))
  ∧ (∀ members f m, Unmarshal (Json (JObject members)) = Some m →
       names f members = false → isZero f m)
  ∧ Unmarshal (Json (JObject [])) = Some zeroMessage.
Proof.
  split; [|split; [|split]].
  - intros p. destruct p as [raw|v]; [done|].
    destruct v as [|b|n|s|items|members]; try done.
    apply decodeMembers_rejected.
  - intros before key v after Hk. by apply decodeMembers_unknown.
  - intros members f m Hm Hn.
    pose proof (decodeMembers_unnamed f members zeroMessage m Hm Hn) as Hsame.
    by destruct f.
  - done.
Qed.

End Decoding.

(** C5 fails on the code: the frame carries no time and decodes; the
    message that is saved has the zero time, not a time of receipt. *)
Lemma decoded_time_left_zero :
  @suppliesTime healthy (text "bob" "alice" "hi") = false
  ∧ @Unmarshal healthy (text "bob" "alice" "hi") = Some hi
  ∧ Time_ hi = zeroTime
  ∧ trace (@onFrame healthy (text "bob" "alice" "hi") init) = [Insert hi true].
Proof. repeat split; vm_compute; reflexivity. Qed.

(** C6 fails on the code: the frame has a field the struct does not know
    and lacks the receiver, the content and the time, yet it decodes, to a
    message with zero values in their place, and is saved and queued like
    any other. *)
Lemma sparse_frame_is_accepted :
  @fieldOf healthy "priority" = None
  ∧ @names healthy FReceiver [("sender", JString "bob"); ("priority", JNumber "1")] = false
  ∧ @Unmarshal healthy sparse = Some (mkMessage "bob" "" "" zeroTime)
  ∧ trace (@onFrame healthy sparse init) = [Insert (mkMessage "bob" "" "" zeroTime) true]
  ∧ queueOf (@onFrame healthy sparse init) "" = [mkMessage "bob" "" "" zeroTime].
Proof. repeat split; vm_compute; reflexivity. Qed.

Lemma missing_time_stays_zero_witness :
  Time_ hi = zeroTime
  ∧ recorded (since init (@onFrame healthy (text "bob" "alice" "hi") init)) = [hi].
Proof.
  destruct (@missing_time_stays_zero healthy (text "bob" "alice" "hi") hi init)
    as (Ht & _ & Hr).
  - vm_compute. reflexivity.
  - vm_compute. reflexivity.
  - split; [exact Ht|exact Hr].
Defined.

Lemma decode_ignores_unknown_and_missing_witness :
  @Unmarshal healthy sparse
  = @Unmarshal healthy (Json (JObject [("sender", JString "bob")]))
  ∧ isZero FReceiver (mkMessage "bob" "" "" zeroTime).
Proof.
  destruct (@decode_ignores_unknown_and_missing healthy) as (_ & Hskip & Hzero & _).
  split.
  - apply (Hskip [("sender", JString "bob")] "priority" (JNumber "1") []).
    vm_compute. reflexivity.
  - apply (Hzero [("sender", JString "bob"); ("priority", JNumber "1")]).
    + vm_compute. reflexivity.
    + vm_compute. reflexivity.
Defined.

(** ** Delivery next to a reconnect *)

Section Overlap.
Context `{Outside}.

Lemma alone_add a b t w :
  alone (a + b) t w = alone b (alone a t w).1 (alone a t w).2.
Proof. revert t w. induction a as [|a IH]; intros t w; [done|apply IH]. Qed.

(** A thread left alone for the statements of [sendMessage] computes
    [sendMessage]. *)
Lemma alone_sendMessage m next w :
  alone 2 (AtLookup m next) w = (next, sendMessage m w).
Proof.
  unfold sendMessage. simpl.
  by destruct (connections w !! Receiver m).
Qed.

Lemma alone_loop userID queue w :
  alone (3 * length queue + 2) (AtLoop userID queue) w
  = (Finished, setQueues <[userID := []]> (flush queue w)).
Proof.
  revert w. induction queue as [|m queue IH]; intros w; [done|].
  replace (3 * length (m :: queue) + 2) with (S (2 + (3 * length queue + 2)))
    by (simpl; lia).
  set (k := 3 * length queue + 2) in *.
  change (alone (S (2 + k)) (AtLoop userID (m :: queue)) w)
    with (alone (2 + k) (AtLookup m (AtLoop userID queue)) w).
  rewrite (alone_add 2), alone_sendMessage. apply IH.
Qed.

(** A thread left alone for the statements of the connection phase
    computes [connect]. *)
Lemma alone_connect userID conn w :
  alone (connectTurns userID w) (AtBind userID conn) w
  = (Finished, connect userID conn w).
Proof.
  unfold connectTurns.
  replace (4 + 3 * length (queueOf w userID))
    with (S (S (3 * length (queueOf w userID) + 2))) by lia.
  set (k := 3 * length (queueOf w userID) + 2).
  change (alone (S (S k)) (AtBind userID conn) w)
    with (alone k (AtLoop userID (queueOf w userID))
                (setConnections <[userID := conn]> w)).
  apply (alone_loop userID (queueOf w userID)).
Qed.

Lemma interleave_app o1 o2 pool :
  interleave (o1 ++ o2) pool = interleave o2 (interleave o1 pool).
Proof. unfold interleave. apply foldl_app. Qed.

Lemma interleave_replicate n i threads t w :
  threads !! i = Some t →
  interleave (replicate n i) (threads, w)
  = (<[i := (alone n t w).1]> threads, (alone n t w).2).
Proof.
  revert threads t w. induction n as [|n IH]; intros threads t w Ht.
  - simpl. by rewrite list_insert_id.
  - simpl. unfold schedule at 1. simpl. rewrite Ht.
    erewrite (IH _ (turn t w).1).
    + by rewrite list_insert_insert_eq.
    + apply list_lookup_insert_eq. by eapply lookup_lt_Some.
Qed.

Lemma omap_snoc_Marshal queue m :
  omap Marshal (queue ++ [m])
  = omap Marshal queue ++ match Marshal m with Some frame => [frame] | None => [] end.
Proof. rewrite omap_app. simpl. by destruct (Marshal m). Qed.

(** Run one after the other, the two threads compute [sendMessage] and
    the connection phase composed; in both orders one write is attempted
    for the message, after those for the messages queued before it. *)
Lemma delivery_beside_reconnect (userID : string) (conn : Conn) (m : Message)
    (w : World) :
  queuesSorted w → connections w !! userID = None → Receiver m = userID →
  interleave (replicate 2 1 ++ replicate (connectTurns userID (sendMessage m w)) 0)
             ([AtBind userID conn; AtLookup m Finished], w)
  = ([Finished; Finished], connect userID conn (sendMessage m w))
  ∧ attempted conn (since w (connect userID conn (sendMessage m w)))
    = omap Marshal (queueOf w userID ++ [m])
  ∧ queueOf (connect userID conn (sendMessage m w)) userID = []
  ∧ interleave (replicate (connectTurns userID w) 0 ++ replicate 2 1)
               ([AtBind userID conn; AtLookup m Finished], w)
    = ([Finished; Finished], sendMessage m (connect userID conn w))
  ∧ attempted conn (since w (sendMessage m (connect userID conn w)))
    = omap Marshal (queueOf w userID ++ [m])
  ∧ queueOf (sendMessage m (connect userID conn w)) userID = [].
Proof.
  intros Hs Hn Hr.
  assert (sendMessage m w = setQueues <[userID := (queueOf w userID ++ [m])]> w) as Hsend.
  { rewrite sendMessage_unbound by (by rewrite Hr). by rewrite Hr. }
  pose proof (sendMessage_sorted m w Hs) as Hs'.
  split; [|split; [|split; [|split; [|split]]]].
  - rewrite interleave_app.
    rewrite (interleave_replicate 2 1 _ (AtLookup m Finished)) by done.
    rewrite alone_sendMessage. cbn [fst snd].
    rewrite (interleave_replicate _ 0 _ (AtBind userID conn)) by done.
    by rewrite alone_connect.
  - rewrite connect_sorted by done. erewrite since_app.
    + apply attempted_flushEvents.
    + by rewrite Hsend, queueOf_setQueues_insert.
  - rewrite connect_sorted by done. unfold queueOf. simpl.
    by rewrite lookup_insert_eq.
  - rewrite interleave_app.
    rewrite (interleave_replicate _ 0 _ (AtBind userID conn)) by done.
    rewrite alone_connect. cbn [fst snd].
    rewrite (interleave_replicate 2 1 _ (AtLookup m Finished)) by done.
    by rewrite alone_sendMessage.
  - rewrite connect_sorted by done. rewrite omap_snoc_Marshal.
    unfold sendMessage. simpl. rewrite Hr, lookup_insert_eq.
    destruct (Marshal m) as [frame|].
    + erewrite since_app; last by (simpl; rewrite <- app_assoc).
      rewrite attempted_app, attempted_flushEvents. simpl.
      by rewrite decide_True.
    + erewrite since_app; last done.
      by rewrite attempted_flushEvents, app_nil_r.
  - rewrite sendMessage_queue_bound_eq.
    + rewrite connect_sorted by done. unfold queueOf. simpl.
      by rewrite lookup_insert_eq.
    + rewrite connect_sorted by done. simpl. by rewrite Hr, lookup_insert_eq.
Qed.

End Overlap.

(** C9 fails on the code: bob's handler looks alice up before she is bound
    and appends the message after her handler has read her queue and before
    it clears it. The message was in her queue, and when both handlers are
    done it is in no queue and has been written to no connection. *)
Lemma enqueue_during_flush_is_lost :
  let pool := ([AtBind "alice" 7; AtLookup hi Finished], init) in
  queueOf (@interleave healthy [1; 0; 0; 1] pool).2 "alice" = [hi]
  ∧ @interleave healthy [1; 0; 0; 1; 0; 0] pool
    = ([Finished; Finished], mkWorld {["alice" := 7]} {["alice" := []]} []).
Proof. split; vm_compute; reflexivity. Qed.


(** * Further properties of the relay *)

(** ** The store of pending messages *)

Section Store.
Context `{Outside}.

Lemma frameReceiver_Marshal m frame :
  Marshal m = Some frame → frameReceiver frame = Some (Receiver m).
Proof.
  unfold Marshal. destruct (formatTime (Time_ m)); [|done].
  simpl. by intros [= <-].
Qed.

Lemma writtenFor_app userID t1 t2 :
  writtenFor userID (t1 ++ t2) = writtenFor userID t1 ++ writtenFor userID t2.
Proof. unfold writtenFor. apply omap_app. Qed.

Lemma writtenFor_flushEvents_own userID conn history queue :
  Forall (λ m, Receiver m = userID) queue →
  writtenFor userID (flushEvents conn history queue) = omap Marshal queue.
Proof.
  intros Hq. revert history.
  induction Hq as [|m queue Hm _ IH]; intros history; [done|].
  simpl. destruct (Marshal m) as [frame|] eqn:Hf; [|apply IH].
  change (writtenFor userID (?e :: ?t)) with (writtenFor userID ([e] ++ t)).
  rewrite writtenFor_app, IH. unfold writtenFor at 1. simpl.
  rewrite (frameReceiver_Marshal _ _ Hf), Hm. by rewrite decide_True.
Qed.

Lemma writtenFor_flushEvents_other userID other conn history queue :
  Forall (λ m, Receiver m = other) queue → other ≠ userID →
  writtenFor userID (flushEvents conn history queue) = [].
Proof.
  intros Hq Hne. revert history.
  induction Hq as [|m queue Hm _ IH]; intros history; [done|].
  simpl. destruct (Marshal m) as [frame|] eqn:Hf; [|apply IH].
  change (writtenFor userID (?e :: ?t)) with (writtenFor userID ([e] ++ t)).
  rewrite writtenFor_app, IH. unfold writtenFor. simpl.
  rewrite (frameReceiver_Marshal _ _ Hf), Hm.
  rewrite decide_False; [done|]. congruence.
Qed.

Lemma step_drained_when_bound a w :
  queuesSorted w → boundMeansDrained w → boundMeansDrained (step w a).
Proof.
  intros Hs Hd userID. destruct a as [other conn|p|other conn]; simpl.
  - case_decide; [apply Hd|]. rewrite connect_sorted by done.
    unfold queueOf. simpl. rewrite !lookup_insert.
    case_decide; [done|]. apply Hd.
  - rewrite onFrame_connections. intros Hb.
    unfold onFrame. destruct (Unmarshal p) as [m|]; [|by apply Hd].
    destruct (connections w !! Receiver m) as [conn|] eqn:Hc.
    + rewrite sendMessage_queue_bound_eq; [by apply Hd|].
      simpl. by rewrite Hc.
    + rewrite sendMessage_queue_other; [by apply Hd|].
      intros Heq. rewrite Heq in Hc. rewrite Hc in Hb. by destruct Hb.
  - rewrite lookup_delete. case_decide; [by intros []|apply Hd].
Qed.

Lemma run_drained_when_bound acts w :
  queuesSorted w → boundMeansDrained w → boundMeansDrained (run acts w).
Proof.
  revert w. induction acts as [|a acts IH]; intros w Hs Hd; [done|].
  change (run (a :: acts) w) with (run acts (step w a)).
  apply IH; [by apply step_sorted|by apply step_drained_when_bound].
Qed.

Lemma init_drained : boundMeansDrained init.
Proof. intros userID [conn Hc]. simpl in Hc. by rewrite lookup_empty in Hc. Qed.


Lemma queueOf_insert cs (qs : gmap string (list Message)) tr other queue userID :
  queueOf (mkWorld cs (<[other := queue]> qs) tr) userID
  = if decide (other = userID) then queue else default [] (qs !! userID).
Proof. unfold queueOf. simpl. rewrite lookup_insert. by case_decide. Qed.

Lemma step_ledger userID a w :
  queuesSorted w → boundMeansDrained w →
  writtenFor userID (trace (step w a)) ++ omap Marshal (queueOf (step w a) userID)
  = (writtenFor userID (trace w) ++ omap Marshal (queueOf w userID))
    ++ omap Marshal (addressedTo userID [a]).
Proof.
  intros Hs Hd. destruct a as [other conn|p|other conn]; simpl.
  - rewrite app_nil_r. case_decide.
    + simpl. rewrite writtenFor_app. simpl. by rewrite app_nil_r.
    + rewrite connect_sorted by done. rewrite queueOf_insert.
      cbn [trace]. rewrite writtenFor_app.
      pose proof (queuesSorted_lookup w other Hs) as Hq.
      case_decide as Ho.
      * subst other. rewrite writtenFor_flushEvents_own by done.
        simpl. by rewrite app_nil_r.
      * rewrite (writtenFor_flushEvents_other userID other) by done.
        by rewrite app_nil_r.
  - unfold onFrame, addressedTo. simpl.
    destruct (Unmarshal p) as [m|]; simpl; [|by rewrite app_nil_r].
    assert (writtenFor userID (trace (saveMessage m w)) = writtenFor userID (trace w))
      as Hsave.
    { simpl. rewrite writtenFor_app. simpl. by rewrite app_nil_r. }
    assert (omap Marshal match (if decide (Receiver m = userID) then Some m else None)
                         with Some y => [y] | None => [] end
            = if decide (Receiver m = userID)
              then match Marshal m with Some frame => [frame] | None => [] end
              else []) as ->.
    { case_decide; simpl; [by destruct (Marshal m)|done]. }
    unfold sendMessage.
    destruct (connections (saveMessage m w) !! Receiver m) as [conn|] eqn:Hc.
    + change (connections (saveMessage m w)) with (connections w) in Hc.
      assert (Receiver m = userID → queueOf w userID = []) as Hempty.
      { intros Hr. apply Hd. rewrite <- Hr. by rewrite Hc. }
      destruct (Marshal m) as [frame|] eqn:Hf.
      * change (queueOf (emit ?e (saveMessage m w)) userID) with (queueOf w userID).
        cbn [trace emit saveMessage]. rewrite !writtenFor_app.
        unfold writtenFor at 2 3. simpl.
        rewrite (frameReceiver_Marshal _ _ Hf).
        destruct (decide (Receiver m = userID)) as [Hr|Hr].
        -- rewrite decide_True by congruence. rewrite (Hempty Hr).
           simpl. by rewrite !app_nil_r.
        -- rewrite decide_False by congruence. by rewrite !app_nil_r.
      * change (queueOf (saveMessage m w) userID) with (queueOf w userID).
        rewrite Hsave. by case_decide; rewrite app_nil_r.
    + change (connections (saveMessage m w)) with (connections w) in Hc.
      unfold setQueues. rewrite queueOf_insert. cbn [trace messageQueues saveMessage emit].
      rewrite writtenFor_app. unfold writtenFor at 2. simpl. rewrite app_nil_r.
      destruct (decide (Receiver m = userID)) as [Hr|Hr].
      * subst userID. change (queueOf (saveMessage m w) (Receiver m))
          with (queueOf w (Receiver m)).
        rewrite omap_snoc_Marshal. by rewrite app_assoc.
      * by rewrite app_nil_r.
  - rewrite writtenFor_app. simpl. by rewrite !app_nil_r.
Qed.

Lemma run_ledger userID acts w :
  queuesSorted w → boundMeansDrained w →
  writtenFor userID (trace (run acts w)) ++ omap Marshal (queueOf (run acts w) userID)
  = (writtenFor userID (trace w) ++ omap Marshal (queueOf w userID))
    ++ omap Marshal (addressedTo userID acts).
Proof.
  revert w. induction acts as [|a acts IH]; intros w Hs Hd.
  - simpl. by rewrite app_nil_r.
  - change (run (a :: acts) w) with (run acts (step w a)).
    rewrite IH by (by apply step_sorted || by apply step_drained_when_bound).
    rewrite step_ledger by done.
    rewrite (addressedTo_cons userID a acts), omap_app. by rewrite !app_assoc.
Qed.

(** X2. When the handlers take turns, each connection phase and each pass
    of the loop running with no other handler in between, nothing is
    skipped and nothing overtakes per receiver: after any such steps the
    frames handed to a connection for a user, followed by the encodings of
    what is queued for that user, are the encodings of the messages
    received for that user so far, in the order of receipt. *)
Theorem per_receiver_ledger (userID : string) (acts : list Action) :
  writtenFor userID (trace (run acts init))
    ++ omap Marshal (queueOf (run acts init) userID)
  = omap Marshal (addressedTo userID acts).
Proof.
  rewrite run_ledger; [done|apply init_sorted|apply init_drained].
Qed.

Lemma deliveredFor_notRefused userID tr :
  Forall (λ e, notRefused e = true) tr → deliveredFor userID tr = writtenFor userID tr.
Proof.
  induction 1 as [|e tr He _ IH]; [done|].
  change (e :: tr) with ([e] ++ tr).
  unfold deliveredFor, writtenFor in *. rewrite !omap_app, IH. f_equal.
  by destruct e as [c f [|]| |].
Qed.

(** X13. When the handlers take turns, each connection phase and each
    pass of the loop running with no other handler in between, and no write
    has been refused, the frames that connections have accepted for a user,
    followed by the encodings of what is queued for the user, are the
    encodings of all messages received for the user, in the order of
    receipt. *)
Theorem nothing_lost_without_refusal (userID : string) (acts : list Action) :
  Forall (λ e, notRefused e = true) (trace (run acts init)) →
  deliveredFor userID (trace (run acts init))
    ++ omap Marshal (queueOf (run acts init) userID)
  = omap Marshal (addressedTo userID acts).
Proof.
  intros Hok. rewrite deliveredFor_notRefused by done.
  rewrite run_ledger; [done|apply init_sorted|apply init_drained].
Qed.

End Store.


(** ** Where frames go *)

Section Routing.
Context `{Outside}.

Lemma elem_of_flushEvents conn history queue c frame ok :
  Write c frame ok ∈ flushEvents conn history queue →
  c = conn ∧ ∃ m, m ∈ queue ∧ Marshal m = Some frame.
Proof.
  revert history. induction queue as [|m queue IH]; intros history Hin; simpl in Hin.
  - by apply elem_of_nil in Hin.
  - destruct (Marshal m) as [f|] eqn:Hf.
    + apply elem_of_cons in Hin as [[= -> -> _]|Hin].
      * split; [done|]. exists m. split; [by left|done].
      * destruct (IH _ Hin) as (-> & m' & Hm' & Hf'). split; [done|].
        exists m'. split; [by right|done].
    + destruct (IH _ Hin) as (-> & m' & Hm' & Hf'). split; [done|].
      exists m'. split; [by right|done].
Qed.

(** In one step of a handler that runs with no other handler in between
    (a connection phase, a pass of the loop or an exit), each write goes to
    the connection that the registry holds, when the step ends, for the
    receiver named in the frame. *)
Lemma step_writes_go_to_the_binding (a : Action) (w : World)
    (conn : Conn) (frame : json) (ok : bool) :
  queuesSorted w →
  Write conn frame ok ∈ since w (step w a) →
  ∃ userID, frameReceiver frame = Some userID
            ∧ connections (step w a) !! userID = Some conn.
Proof.
  intros Hs. destruct a as [userID c|p|userID c]; simpl.
  - case_decide.
    + erewrite since_app by done. intros Hin.
      apply list_elem_of_singleton in Hin. done.
    + rewrite connect_sorted by done. erewrite since_app by done.
      intros Hin. apply elem_of_flushEvents in Hin as (-> & m & Hm & Hf).
      exists userID. split.
      * rewrite (frameReceiver_Marshal _ _ Hf). f_equal.
        pose proof (queuesSorted_lookup w userID Hs) as Hq.
        rewrite Forall_forall in Hq. by apply Hq.
      * simpl. by rewrite lookup_insert_eq.
  - rewrite onFrame_connections. unfold onFrame.
    destruct (Unmarshal p) as [m|]; [|by erewrite since_app by (by rewrite app_nil_r);
                                        intros Hin; apply elem_of_nil in Hin].
    unfold sendMessage.
    destruct (connections (saveMessage m w) !! Receiver m) as [c|] eqn:Hc.
    + change (connections (saveMessage m w)) with (connections w) in Hc.
      destruct (Marshal m) as [f|] eqn:Hf.
      * erewrite since_app by (by simpl; rewrite <- app_assoc).
        intros Hin. apply elem_of_cons in Hin as [Hin|Hin]; [done|].
        apply list_elem_of_singleton in Hin. injection Hin as -> -> _.
        exists (Receiver m). split; [by apply frameReceiver_Marshal|done].
      * erewrite since_app by done. intros Hin.
        apply list_elem_of_singleton in Hin. done.
    + erewrite since_app by done. intros Hin.
      apply list_elem_of_singleton in Hin. done.
  - erewrite since_app by done. intros Hin.
    apply list_elem_of_singleton in Hin. done.
Qed.

(** X4. A second connection under the same user id takes over: afterwards
    a message for the user is written to the new connection and the old
    one is left alone. *)
Theorem rebinding_redirects_delivery (userID : string) (old new : Conn)
    (m : Message) (frame : json) (w : World) :
  Receiver m = userID → Marshal m = Some frame → old ≠ new →
  connections (connect userID new (connect userID old w)) !! userID = Some new
  ∧ attempted new (since (connect userID new (connect userID old w))
                     (sendMessage m (connect userID new (connect userID old w))))
    = [frame]
  ∧ attempted old (since (connect userID new (connect userID old w))
                     (sendMessage m (connect userID new (connect userID old w))))
    = []
  ∧ messageQueues (sendMessage m (connect userID new (connect userID old w)))
    = messageQueues (connect userID new (connect userID old w)).
Proof.
  intros Hr Hf Hne.
  set (w2 := connect userID new (connect userID old w)).
  assert (connections w2 !! userID = Some new) as Hc.
  { unfold w2, connect. simpl. rewrite flush_connections. simpl.
    by rewrite lookup_insert_eq. }
  split; [done|].
  assert (connections w2 !! Receiver m = Some new) as Hc' by (by rewrite Hr).
  rewrite (sendMessage_bound m w2 new frame Hc' Hf).
  erewrite since_app by done.
  repeat split.
  - unfold attempted. simpl. by rewrite decide_True.
  - unfold attempted. simpl. by rewrite decide_False.
Qed.

(** X5. The exit of a session removes the binding of its user id whichever
    connection holds it. When a user has reconnected and the earlier
    session then ends, the user is unbound although the later connection
    is open: the next message for the user is queued and nothing is
    written. *)
Theorem stale_exit_unbinds_the_new_session (userID : string) (old new : Conn)
    (m : Message) (w : World) :
  userID ≠ "" → Receiver m = userID →
  connections (run [Connect userID new; Disconnect userID old] w) !! userID = None
  ∧ queueOf (sendMessage m (run [Connect userID new; Disconnect userID old] w)) userID
    = [m]
  ∧ trace (sendMessage m (run [Connect userID new; Disconnect userID old] w))
    = trace (run [Connect userID new; Disconnect userID old] w).
Proof.
  intros Hu Hr.
  set (w2 := run [Connect userID new; Disconnect userID old] w).
  assert (connections w2 !! userID = None) as Hc.
  { unfold w2. simpl. rewrite decide_False by done. simpl. by rewrite lookup_delete_eq. }
  assert (queueOf w2 userID = []) as Hq.
  { unfold w2. simpl. rewrite decide_False by done.
    unfold queueOf. simpl. by rewrite lookup_insert_eq. }
  split; [done|].
  rewrite sendMessage_unbound by (by rewrite Hr).
  rewrite Hr, queueOf_setQueues_insert, Hq. done.
Qed.

End Routing.

(** ** Encoding and decoding *)

Section Codec.
Context `{Outside}.

Lemma fieldOf_exact f : fieldOf (fieldName f) = Some f.
Proof. by destruct f. Qed.

(** X6. What the relay writes it can read back: when the time of a message
    formats to a text that parses to the same time, the frame that
    [Marshal] produces decodes to the message itself, so a frame sent back
    by a client is relayed unchanged. *)
Theorem Unmarshal_Marshal (m : Message) (frame : json) :
  Marshal m = Some frame →
  (∀ s, formatTime (Time_ m) = Some s → parseTime s = Some (Time_ m)) →
  Unmarshal (Json frame) = Some m.
Proof.
  unfold Marshal. intros Hf Hround.
  destruct (formatTime (Time_ m)) as [s|] eqn:Hs; [|done].
  simpl in Hf. injection Hf as <-.
  pose proof (fieldOf_exact FSender) as Hsender.
  pose proof (fieldOf_exact FReceiver) as Hreceiver.
  pose proof (fieldOf_exact FContent) as Hcontent.
  pose proof (fieldOf_exact FTime) as Htime.
  unfold fieldName in *.
  unfold Unmarshal, decodeMembers.
  rewrite Hsender, Hreceiver, Hcontent, Htime.
  simpl. rewrite (Hround s eq_refl). simpl. by destruct m.
Qed.

Lemma decodeMembers_app before after m :
  decodeMembers (before ++ after) m
  = m' ← decodeMembers before m; decodeMembers after m'.
Proof.
  revert m. induction before as [|[key v] before IH]; intros m; simpl; [done|].
  destruct (fieldOf key) as [f|]; [|apply IH].
  destruct (store f v m) as [m1|]; simpl; [apply IH|done].
Qed.

Lemma sameField_textField f m m' :
  sameField f m m' → textField f m' = textField f m.
Proof. destruct f; simpl; congruence. Qed.

(** X7. When a text field is named more than once, the last member naming
    it decides: if decoding succeeds and no member after [(key, s)] names
    the field of [key], the field holds [s]. *)
Theorem last_member_wins (before after : list (string * json)) (key s : string)
    (f : Field) (m : Message) :
  fieldOf key = Some f → f ≠ FTime → names f after = false →
  Unmarshal (Json (JObject (before ++ (key, JString s) :: after))) = Some m →
  textField f m = Some s.
Proof.
  intros Hk Hf Hn Hm. unfold Unmarshal in Hm.
  rewrite decodeMembers_app in Hm.
  destruct (decodeMembers before zeroMessage) as [m0|]; [|done].
  simpl in Hm. rewrite Hk in Hm.
  destruct f; [| | |done]; simpl in Hm;
    by rewrite (sameField_textField _ _ m (decodeMembers_unnamed _ after _ m Hm Hn)).
Qed.

End Codec.

(** ** The database and the trace *)

Section Audit.
Context `{Outside}.

Lemma sendMessage_recorded m w :
  recorded (trace (sendMessage m w)) = recorded (trace w).
Proof.
  unfold sendMessage.
  destruct (connections w !! Receiver m); [destruct (Marshal m)|]; try done.
  simpl. rewrite recorded_app. simpl. by rewrite app_nil_r.
Qed.

Lemma flush_recorded queue w :
  recorded (trace (flush queue w)) = recorded (trace w).
Proof.
  revert w. induction queue as [|m queue IH]; intros w; [done|].
  rewrite flush_cons, IH. apply sendMessage_recorded.
Qed.

Lemma step_recorded a w :
  recorded (trace (step w a)) = recorded (trace w) ++ decoded [a].
Proof.
  destruct a as [userID conn|p|userID conn]; simpl.
  - case_decide; simpl.
    + rewrite recorded_app. done.
    + unfold connect. simpl. rewrite flush_recorded. simpl. by rewrite app_nil_r.
  - unfold onFrame, decoded. simpl.
    destruct (Unmarshal p) as [m|]; simpl; [|by rewrite app_nil_r].
    rewrite sendMessage_recorded. simpl. by rewrite recorded_app.
  - by rewrite recorded_app.
Qed.

Lemma decoded_cons a acts : decoded (a :: acts) = decoded [a] ++ decoded acts.
Proof. change (a :: acts) with ([a] ++ acts). unfold decoded. apply omap_app. Qed.

(** X8. Every frame that decodes is handed to the database once, in the
    order of receipt and before it is delivered, whether its receiver is
    connected or not and whatever the earlier inserts returned; nothing
    else is ever handed to the database. *)
Theorem every_decoded_frame_is_recorded (acts : list Action) (w : World) :
  recorded (trace (run acts w)) = recorded (trace w) ++ decoded acts.
Proof.
  revert w. induction acts as [|a acts IH]; intros w.
  - simpl. by rewrite app_nil_r.
  - change (run (a :: acts) w) with (run acts (step w a)).
    rewrite IH, step_recorded, (decoded_cons a acts). by rewrite app_assoc.
Qed.

Lemma audited_emit_other e w :
  audited w → (∀ c f ok, e ≠ Write c f ok) → audited (emit e w).
Proof.
  intros [Hq Hw] He. split.
  - intros userID queue m Hl Hm. simpl. rewrite recorded_app.
    apply elem_of_app. left. by eapply Hq.
  - intros c f ok Hin. simpl in Hin. apply elem_of_app in Hin as [Hin|Hin].
    + destruct (Hw c f ok Hin) as (m & Hm & Hf). exists m. split; [|done].
      simpl. rewrite recorded_app. apply elem_of_app. by left.
    + apply list_elem_of_singleton in Hin. by destruct (He c f ok).
Qed.

Lemma sendMessage_audited m w :
  audited w → m ∈ recorded (trace w) → audited (sendMessage m w).
Proof.
  intros [Hq Hw] Hm. unfold sendMessage.
  destruct (connections w !! Receiver m) as [conn|].
  - destruct (Marshal m) as [frame|] eqn:Hf; [|done]. split.
    + intros userID queue m' Hl Hm'. simpl. rewrite recorded_app.
      apply elem_of_app. left. by eapply Hq.
    + intros c f ok Hin. simpl in Hin. simpl. rewrite recorded_app. simpl.
      rewrite app_nil_r.
      apply elem_of_app in Hin as [Hin|Hin]; [by apply (Hw c f ok)|].
      apply list_elem_of_singleton in Hin. injection Hin as -> -> _. by exists m.
  - split; [|done].
    intros userID queue m' Hl Hm'. simpl in *.
    rewrite lookup_insert in Hl. case_decide as Hu; [|by eapply Hq].
    injection Hl as <-. apply elem_of_app in Hm' as [Hm'|Hm'].
    + unfold queueOf in Hm'.
      destruct (messageQueues w !! Receiver m) as [q|] eqn:Hl; simpl in Hm'.
      * by eapply Hq.
      * by apply elem_of_nil in Hm'.
    + apply list_elem_of_singleton in Hm'. by subst.
Qed.

Lemma flush_audited queue w :
  audited w → Forall (λ m, m ∈ recorded (trace w)) queue → audited (flush queue w).
Proof.
  revert w. induction queue as [|m queue IH]; intros w Ha Hq; [done|].
  rewrite flush_cons. inversion Hq as [|? ? Hm Hrest]; subst.
  apply IH; [by apply sendMessage_audited|].
  by rewrite sendMessage_recorded.
Qed.

Lemma step_audited a w : audited w → audited (step w a).
Proof.
  intros Ha. destruct a as [userID conn|p|userID conn]; simpl.
  - case_decide; [by apply audited_emit_other|].
    unfold connect.
    set (w1 := setConnections <[userID := conn]> w).
    assert (audited w1) as Ha1 by done.
    assert (audited (flush (queueOf w1 userID) w1)) as [Hq Hw].
    { apply flush_audited; [done|]. apply Forall_forall. intros m Hm.
      unfold queueOf in Hm.
      destruct (messageQueues w1 !! userID) as [q|] eqn:Hl; simpl in Hm.
      - destruct Ha1 as [Hq1 _]. by eapply Hq1.
      - by apply elem_of_nil in Hm. }
    split; [|done].
    intros other queue m Hl Hm. simpl in *.
    rewrite lookup_insert in Hl. case_decide.
    + injection Hl as <-. by apply elem_of_nil in Hm.
    + by eapply Hq.
  - unfold onFrame. destruct (Unmarshal p) as [m|]; [|done].
    apply sendMessage_audited.
    + by apply audited_emit_other.
    + simpl. rewrite recorded_app. apply elem_of_app. right. simpl. by left.
  - apply (audited_emit_other (Close conn) (setConnections (delete userID) w)); done.
Qed.

(** X9. Nothing reaches a client or a queue without having gone to the
    database first: in every reachable world each queued message, and the
    message behind each frame handed to a connection, is among the messages
    handed to [collection.InsertOne]. *)
Theorem delivered_and_queued_are_recorded (w : World) : reachable w → audited w.
Proof.
  intros [acts ->].
  assert (∀ w0, audited w0 → audited (run acts w0)) as Hrun.
  { induction acts as [|a acts IH]; intros w0 Ha; [done|].
    change (run (a :: acts) w0) with (run acts (step w0 a)).
    by apply IH, step_audited. }
  apply Hrun. split.
  - intros userID queue m Hl. simpl in Hl. by rewrite lookup_empty in Hl.
  - intros c f ok Hin. by apply elem_of_nil in Hin.
Qed.

End Audit.

(** ** The life of one session *)

Section Lifetime.
Context `{Outside}.

Lemma closes_app t1 t2 : closes (t1 ++ t2) = closes t1 ++ closes t2.
Proof. unfold closes. apply omap_app. Qed.

Lemma sendMessage_closes m w : closes (trace (sendMessage m w)) = closes (trace w).
Proof.
  unfold sendMessage.
  destruct (connections w !! Receiver m); [destruct (Marshal m)|]; try done.
  simpl. rewrite closes_app. simpl. by rewrite app_nil_r.
Qed.

Lemma flush_closes queue w : closes (trace (flush queue w)) = closes (trace w).
Proof.
  revert w. induction queue as [|m queue IH]; intros w; [done|].
  rewrite flush_cons, IH. apply sendMessage_closes.
Qed.

Lemma onFrame_closes p w : closes (trace (onFrame p w)) = closes (trace w).
Proof.
  unfold onFrame. destruct (Unmarshal p) as [m|]; [|done].
  rewrite sendMessage_closes. simpl. rewrite closes_app. simpl. by rewrite app_nil_r.
Qed.

Lemma readLoop_closes rs w :
  closes (trace (readLoop rs w).2) = closes (trace w).
Proof.
  revert w. induction rs as [|r rs IH]; intros w; [done|].
  destruct r as [p|]; simpl; [|done]. rewrite IH. apply onFrame_closes.
Qed.

Lemma readLoop_connections rs w :
  connections (readLoop rs w).2 = connections w.
Proof.
  revert w. induction rs as [|r rs IH]; intros w; [done|].
  destruct r as [p|]; simpl; [|done]. rewrite IH. apply onFrame_connections.
Qed.

Lemma readLoop_phase rs w :
  (readLoop rs w).1 = if readFails rs then Closed else Active.
Proof.
  revert w. induction rs as [|r rs IH]; intros w; [done|].
  destruct r as [p|]; simpl; [apply IH|done].
Qed.

(** X10. A handler returns exactly when the handshake fails, the user id
    is empty or a read fails, and else stays in its loop. It closes the
    connection it accepted once, when it returns, and closes no other. *)
Theorem session_ends_and_closes_once (accepted : option Conn) (userID : string)
    (rs : list Read) (w : World) :
  (handleWebSocket accepted userID rs w).1
  = (if bool_decide (is_Some accepted ∧ userID ≠ "" ∧ readFails rs = false)
     then Active else Closed)
  ∧ closes (trace (handleWebSocket accepted userID rs w).2)
    = closes (trace w)
      ++ match accepted, (handleWebSocket accepted userID rs w).1 with
         | Some conn, Closed => [conn]
         | _, _ => []
         end.
Proof.
  unfold handleWebSocket. destruct accepted as [conn|].
  - case_decide as Hu.
    + split; [|by cbn [snd trace emit]; rewrite closes_app].
      cbn [fst]. case_bool_decide as Hb; [|done]. by destruct Hb as (_ & Hne & _).
    + pose proof (readLoop_phase rs (connect userID conn w)) as Hp.
      pose proof (readLoop_closes rs (connect userID conn w)) as Hc.
      assert (closes (trace (connect userID conn w)) = closes (trace w)) as Hcc.
      { unfold connect. simpl. by rewrite flush_closes. }
      destruct (readLoop rs (connect userID conn w)) as [[|] w'] eqn:Hr;
        cbn [fst snd] in *.
      * destruct (readFails rs) eqn:Hin; [done|].
        rewrite bool_decide_eq_true_2 by (split; [by eexists|done]).
        split; [done|]. by rewrite app_nil_r, Hc, Hcc.
      * destruct (readFails rs) eqn:Hin; [|done].
        split.
        -- case_bool_decide as Hb; [|done]. by destruct Hb as (_ & _ & Hb).
        -- cbn [disconnect trace emit setConnections]. by rewrite closes_app, Hc, Hcc.
  - split; [|by cbn [snd]; rewrite app_nil_r].
    cbn [fst]. case_bool_decide as Hb; [|done]. by destruct Hb as ([? ?] & _).
Qed.

(** X11. While a session with a user id is in its loop the user is bound
    to its connection, and when it has returned the user is bound to
    nothing, whatever the registry held for the user before; the bindings
    of all other users are as they were. *)
Theorem session_binds_then_unbinds (conn : Conn) (userID : string) (rs : list Read)
    (w : World) :
  userID ≠ "" →
  connections (handleWebSocket (Some conn) userID rs w).2
  = if readFails rs
    then delete userID (connections w)
    else <[userID := conn]> (connections w).
Proof.
  intros Hu. unfold handleWebSocket. rewrite decide_False by done.
  pose proof (readLoop_phase rs (connect userID conn w)) as Hp.
  pose proof (readLoop_connections rs (connect userID conn w)) as Hc.
  assert (connections (connect userID conn w) = <[userID := conn]> (connections w))
    as Hcc.
  { unfold connect. simpl. by rewrite flush_connections. }
  destruct (readLoop rs (connect userID conn w)) as [[|] w'] eqn:Hr; simpl in *.
  - destruct (readFails rs); [done|]. by rewrite Hc, Hcc.
  - destruct (readFails rs); [|done]. rewrite Hc, Hcc. apply delete_insert_eq.
Qed.

(** ** Counting requests *)

Lemma Inc_lookup labels other counters :
  Inc labels counters !! other
  = if decide (labels = other) then Some (S (default 0 (counters !! other)))
    else counters !! other.
Proof. unfold Inc. rewrite lookup_insert. by case_decide; subst. Qed.

Lemma serveAll_counters rs counters w labels :
  default 0 ((serveAll rs (counters, w)).1 !! labels)
  = default 0 (counters !! labels)
    + length (filter (λ r, (method r, "200") = labels) rs).
Proof.
  revert counters w. induction rs as [|r rs IH]; intros counters w.
  - simpl. lia.
  - change (serveAll (r :: rs) (counters, w))
      with (serveAll rs (serve r (counters, w))).
    unfold serve at 1. cbn [fst snd]. rewrite IH, Inc_lookup.
    rewrite filter_cons. case_decide as Hl; simpl; lia.
Qed.

(** X12. Every request is counted once, under its method and the status
    ["200"], whether the handshake fails, the user id is missing or the
    session runs: after any requests the counter of a method with status
    ["200"] has grown by the number of requests with that method, and a
    counter with another status has not moved. *)
Theorem requests_counted_as_200 (rs : list Request)
    (counters : gmap (string * string) nat) (w : World) (meth status : string) :
  default 0 ((serveAll rs (counters, w)).1 !! (meth, status))
  = default 0 (counters !! (meth, status))
    + (if decide (status = "200")
       then length (filter (λ r, method r = meth) rs) else 0).
Proof.
  rewrite serveAll_counters. f_equal. case_decide as Hs.
  - subst status. f_equal. apply list_filter_iff. intros r. naive_solver.
  - induction rs as [|r rs IH]; [done|].
    rewrite filter_cons. rewrite decide_False; [done|]. congruence.
Qed.

End Lifetime.

(** ** The further properties at concrete inputs *)


Lemma rebinding_redirects_delivery_witness :
  attempted 8 (since (@connect healthy "alice" 8 (@connect healthy "alice" 7 init))
                 (@sendMessage healthy hi
                    (@connect healthy "alice" 8 (@connect healthy "alice" 7 init))))
  = [frameOf hi].
Proof.
  destruct (@rebinding_redirects_delivery healthy "alice" 7 8 hi (frameOf hi) init)
    as (_ & Hnew & _); [reflexivity|reflexivity|discriminate|exact Hnew].
Defined.

Lemma stale_exit_unbinds_the_new_session_witness :
  connections (@run healthy [Connect "alice" 8; Disconnect "alice" 7]
                 (@run healthy [Connect "alice" 7] init)) !! "alice" = None
  ∧ queueOf (@sendMessage healthy hi
               (@run healthy [Connect "alice" 8; Disconnect "alice" 7]
                  (@run healthy [Connect "alice" 7] init))) "alice" = [hi].
Proof.
  destruct (@stale_exit_unbinds_the_new_session healthy "alice" 7 8 hi
              (@run healthy [Connect "alice" 7] init)) as (Hc & Hq & _);
    [discriminate|reflexivity|].
  split; [exact Hc|exact Hq].
Defined.

Lemma Unmarshal_Marshal_witness : @Unmarshal healthy (Json (frameOf hi)) = Some hi.
Proof.
  apply (@Unmarshal_Marshal healthy hi (frameOf hi)); [reflexivity|].
  intros s Hs. vm_compute in Hs. injection Hs as <-. reflexivity.
Defined.

Lemma last_member_wins_witness :
  textField FReceiver (mkMessage "" "carol" "x" zeroTime) = Some "carol".
Proof.
  apply (@last_member_wins healthy [("receiver", JString "alice")]
           [("content", JString "x")] "receiver" "carol" FReceiver
           (mkMessage "" "carol" "x" zeroTime));
    [reflexivity|discriminate|reflexivity|reflexivity].
Defined.

Lemma delivered_and_queued_are_recorded_witness :
  @audited healthy (@run healthy (backlog ++ [Connect "alice" 7]) init).
Proof.
  apply (@delivered_and_queued_are_recorded healthy).
  by exists (backlog ++ [Connect "alice" 7]).
Defined.

Lemma nothing_lost_without_refusal_witness :
  deliveredFor "alice" (trace (@run healthy (backlog ++ [Connect "alice" 7]) init))
    ++ omap (@Marshal healthy)
         (queueOf (@run healthy (backlog ++ [Connect "alice" 7]) init) "alice")
  = omap (@Marshal healthy) (@addressedTo healthy "alice" (backlog ++ [Connect "alice" 7])).
Proof.
  apply (@nothing_lost_without_refusal healthy "alice" (backlog ++ [Connect "alice" 7])).
  vm_compute. repeat constructor.
Defined.

Lemma session_binds_then_unbinds_witness :
  connections (@handleWebSocket healthy (Some 7) "alice"
                 [Frame (text "alice" "bob" "hi"); ReadError]
                 (@run healthy [Connect "bob" 1] init)).2
  = delete "alice" {["bob" := 1]}.
Proof.
  etrans.
  - apply (@session_binds_then_unbinds healthy 7 "alice"
             [Frame (text "alice" "bob" "hi"); ReadError]
             (@run healthy [Connect "bob" 1] init)).
    discriminate.
  - vm_compute. reflexivity.
Defined.

(** ** A delivery overlapping a reconnect *)

Section Account.
Context `{Outside}.

Lemma handlerAt_never_appends userID conn w t :
  handlerAt userID conn w t → appending userID t = false.
Proof. by destruct 1. Qed.

Lemma senderAt_not_ranging userID conn m t :
  senderAt conn m t → ranging userID t = false.
Proof. by destruct 1. Qed.

Lemma handlerAt_trace userID conn w t e :
  handlerAt userID conn w t → handlerAt userID conn (emit e w) t.
Proof. destruct 1; by constructor. Qed.

Lemma attempted_snoc conn events frame ok :
  attempted conn (events ++ [Write conn frame ok]) = attempted conn events ++ [frame].
Proof. rewrite attempted_app. unfold attempted at 2. simpl. by rewrite decide_True. Qed.

Lemma omap_Marshal_cons msg rest :
  omap Marshal (msg :: rest) = option_list (Marshal msg) ++ omap Marshal rest.
Proof. simpl. by destruct (Marshal msg). Qed.

Lemma omap_Marshal_singleton msg : omap Marshal [msg] = option_list (Marshal msg).
Proof. simpl. by destruct (Marshal msg). Qed.

(** One statement of the connection phase keeps the account. *)
Lemma accounted_handler_turn userID conn m w0 handler sender w lost :
  accounted userID conn m w0 handler sender w lost →
  accounted userID conn m w0 (turn handler w).1 sender (turn handler w).2 lost.
Proof.
  unfold accounted. rewrite omap_Marshal_singleton.
  generalize (option_list (Marshal m)). intros M.
  generalize (omap Marshal (senderOwes sender)). intros owed.
  intros (Hh & Hs & Hq & Hl & events & Htr & Hp).
  destruct Hh as [Hc|Hc|rest Hc Hrest|msg rest Hc Hrest|msg rest Hc Hrest|Hc|Hc].
  - (* line 92 *)
    cbn [turn fst snd]. split_and!; try done.
    + constructor. simpl. by rewrite lookup_insert_eq.
    + by exists events.
  - (* line 94, the range expression *)
    cbn [turn fst snd]. split_and!; try done.
    + by constructor.
    + by exists events.
  - (* next element or exit *)
    destruct rest as [|msg rest]; cbn [turn fst snd].
    + split_and!; try done; [by constructor|by exists events].
    + split_and!; try done; [by constructor|by exists events].
  - (* line 135 inside the loop *)
    pose proof Hrest as Hrest0. apply Forall_cons in Hrest as [Hmsg Hrest'].
    cbn [turn]. rewrite Hmsg, Hc. cbn [fst snd].
    split_and!; try done; [by constructor|by exists events].
  - (* lines 144-157 inside the loop *)
    pose proof Hrest as Hrest0. apply Forall_cons in Hrest as [Hmsg Hrest'].
    cbn [turn fst snd handlerOwes] in *.
    rewrite omap_Marshal_cons in Hp.
    destruct (Marshal msg) as [frame|] eqn:Hf; cbn [option_list] in Hp.
    + split_and!; try done; [by constructor|].
      exists (events ++ [Write conn frame (connWrite (trace w) conn frame)]).
      split; [cbn [emit trace]; by rewrite Htr, app_assoc|].
      rewrite attempted_snoc. rewrite <- Hp. by rewrite <- !app_assoc.
    + split_and!; try done; [by constructor|by exists events].
  - (* line 98 *)
    cbn [turn fst snd]. 
    assert (queueOf (setQueues <[userID:=[]]> w) userID = []) as Hempty.
    { apply queueOf_setQueues_insert. }
    split_and!; try done.
    + by constructor.
    + by rewrite Hempty.
    + exists events. split; [done|]. cbn [handlerOwes] in *. by rewrite Hempty.
  - cbn [turn fst snd]. split_and!; try done; [by constructor|by exists events].
Qed.

Lemma handlerOwes_emit userID handler e w :
  handlerOwes userID handler (emit e w) = handlerOwes userID handler w.
Proof. by destruct handler as [| |? []|? ? []| | | |]. Qed.

(** The connection phase leaves the queue alone between reading and
    clearing, and what it still writes does not depend on the queue. *)
Lemma handlerOwes_ranging userID conn handler w f :
  handlerAt userID conn w handler → ranging userID handler = true →
  handlerOwes userID handler (setQueues f w) = handlerOwes userID handler w.
Proof. by destruct 1. Qed.

Lemma handlerOwes_not_ranging userID conn handler w :
  handlerAt userID conn w handler → ranging userID handler = false →
  ∀ w', handlerOwes userID handler w' = queueOf w' userID.
Proof.
  destruct 1; try done; cbn [ranging]; by rewrite bool_decide_eq_true_2.
Qed.

(** One statement of the delivery keeps the account; its append is lost
    when the connection phase stands between reading and clearing. *)
Lemma accounted_sender_turn userID conn m w0 handler sender w lost :
  Receiver m = userID →
  accounted userID conn m w0 handler sender w lost →
  accounted userID conn m w0 handler (turn sender w).1 (turn sender w).2
            (lost || appending userID sender && ranging userID handler).
Proof.
  unfold accounted. rewrite omap_Marshal_singleton.
  intros Hr (Hh & Hs & Hq & Hl & events & Htr & Hp).
  destruct Hs.
  - (* line 135 *)
    assert (lost = false) as -> by (destruct lost; [by specialize (Hl eq_refl)|done]).
    cbn [appending]. rewrite andb_false_l, orb_false_r.
    cbn [turn]. rewrite Hr.
    pose proof Hh as Hh0.
    destruct Hh as [Hc|Hc|rest Hc Hrest|msg rest Hc Hrest|msg rest Hc Hrest|Hc|Hc];
      rewrite Hc; cbn [fst snd];
      (split_and!; [exact Hh0|by constructor|done|done|by exists events]).
  - (* line 138 *)
    assert (lost = false) as -> by (destruct lost; [by specialize (Hl eq_refl)|done]).
    cbn [appending turn fst snd senderOwes] in *.
    rewrite Hr, bool_decide_eq_true_2 by done. rewrite orb_false_l, andb_true_l.
    rewrite omap_Marshal_singleton in Hp.
    assert (Forall (λ msg, Receiver msg = userID)
              (queueOf (setQueues <[userID := (queueOf w userID ++ [m])]> w) userID))
      as Hq'.
    { rewrite queueOf_setQueues_insert. apply Forall_app. split; [done|by constructor]. }
    split_and!; try done; [by destruct Hh; constructor|by constructor|].
    exists events. split; [done|]. cbn [omap list_omap]. rewrite app_nil_r.
    destruct (ranging userID handler) eqn:Hrg.
    + rewrite (handlerOwes_ranging _ _ _ _ _ Hh Hrg). rewrite app_nil_r.
      rewrite app_assoc in Hp. by apply Permutation_app_inv_r in Hp.
    + rewrite (handlerOwes_not_ranging _ _ _ _ Hh Hrg) in *.
      rewrite queueOf_setQueues_insert, omap_app, omap_Marshal_singleton.
      exact Hp.
  - (* lines 144-157 *)
    assert (lost = false) as -> by (destruct lost; [by specialize (Hl eq_refl)|done]).
    cbn [appending turn fst snd senderOwes] in *.
    rewrite andb_false_l, orb_false_r.
    rewrite omap_Marshal_singleton in Hp.
    destruct (Marshal m) as [frame|] eqn:Hf; cbn [option_list] in *.
    + split_and!; try done; [by apply handlerAt_trace|by constructor|].
      exists (events ++ [Write conn frame (connWrite (trace w) conn frame)]).
      split; [cbn [emit trace]; by rewrite Htr, app_assoc|].
      rewrite attempted_snoc, handlerOwes_emit. cbn [omap list_omap].
      rewrite app_nil_r, <- Hp, <- !app_assoc. f_equiv. apply Permutation_app_comm.
    + split_and!; try done; [by constructor|].
      exists events. split; [done|]. done.
  - cbn [appending turn fst snd]. rewrite andb_false_l, orb_false_r.
    split_and!; try done; [by constructor|by exists events].
Qed.

Lemma lostAppend_handler userID order handler sender w :
  lostAppend userID (0 :: order) ([handler; sender], w)
  = appending userID handler && (ranging userID handler || ranging userID sender)
    || lostAppend userID order ([(turn handler w).1; sender], (turn handler w).2).
Proof. simpl. by rewrite orb_false_r. Qed.

Lemma lostAppend_sender userID order handler sender w :
  lostAppend userID (1 :: order) ([handler; sender], w)
  = appending userID sender && (ranging userID handler || ranging userID sender)
    || lostAppend userID order ([handler; (turn sender w).1], (turn sender w).2).
Proof. simpl. by rewrite orb_false_r. Qed.

Lemma lostAppend_idle userID order handler sender w i :
  lostAppend userID (S (S i) :: order) ([handler; sender], w)
  = lostAppend userID order ([handler; sender], w).
Proof. done. Qed.

(** Any schedule of the two threads keeps the account, with the losses the
    schedule causes. *)
Lemma accounted_interleave userID conn m w0 order handler sender w lost :
  Receiver m = userID →
  accounted userID conn m w0 handler sender w lost →
  ∃ handler' sender',
    (interleave order ([handler; sender], w)).1 = [handler'; sender']
    ∧ accounted userID conn m w0 handler' sender'
        (interleave order ([handler; sender], w)).2
        (lost || lostAppend userID order ([handler; sender], w)).
Proof.
  intros Hr. revert handler sender w lost.
  induction order as [|i order IH]; intros handler sender w lost Ha.
  - exists handler, sender. cbn [lostAppend]. by rewrite orb_false_r.
  - change (interleave (i :: order) ([handler; sender], w))
      with (interleave order (schedule ([handler; sender], w) i)).
    pose proof Ha as (Hh & Hs & _).
    destruct i as [|[|i]].
    + (* the connection phase moves *)
      rewrite lostAppend_handler.
      change (schedule ([handler; sender], w) 0)
        with ([(turn handler w).1; sender], (turn handler w).2).
      apply accounted_handler_turn in Ha.
      destruct (IH _ _ _ _ Ha) as (h' & s' & Hpool & Ha').
      exists h', s'. split; [done|].
      by rewrite (handlerAt_never_appends _ _ _ _ Hh), andb_false_l, orb_false_l.
    + (* the delivery moves *)
      rewrite lostAppend_sender.
      change (schedule ([handler; sender], w) 1)
        with ([handler; (turn sender w).1], (turn sender w).2).
      apply (accounted_sender_turn _ _ _ _ _ _ _ _ Hr) in Ha.
      destruct (IH _ _ _ _ Ha) as (h' & s' & Hpool & Ha').
      exists h', s'. split; [done|].
      rewrite (senderAt_not_ranging userID _ _ _ Hs), orb_false_r.
      by rewrite orb_assoc.
    + (* no such thread *)
      rewrite lostAppend_idle.
      change (schedule ([handler; sender], w) (S (S i))) with ([handler; sender], w).
      destruct (IH _ _ _ _ Ha) as (h' & s' & Hpool & Ha').
      by exists h', s'.
Qed.

(** C9 as amended. A delivery for a user who is away runs beside the
    connection phase of that user, their statements alternating in any
    order. At every moment the frames handed to the new connection, the
    messages the connection phase still has to write or leaves queued, and
    the message the delivery still has to write or append are, counted
    with multiplicity, the encodings of the messages queued before and of
    the delivered message. So when both are done the message has been
    written or is queued, once and never twice. The one exception is a
    schedule in which the append of line 138 falls between the reading of
    the queue at line 94 and its clearing at line 98: then the message is
    in neither. *)
Theorem delivery_overlapping_reconnect (userID : string) (conn : Conn) (m : Message)
    (order : list nat) (w : World) :
  queuesSorted w → connections w !! userID = None → Receiver m = userID →
  (∃ handler sender,
     (interleave order ([AtBind userID conn; AtLookup m Finished], w)).1
     = [handler; sender]
     ∧ attempted conn
           (since w (interleave order ([AtBind userID conn; AtLookup m Finished], w)).2)
         ++ omap Marshal
              (handlerOwes userID handler
                 (interleave order ([AtBind userID conn; AtLookup m Finished], w)).2)
         ++ omap Marshal (senderOwes sender)
       ≡ₚ omap Marshal (queueOf w userID)
            ++ (if lostAppend userID order
                     ([AtBind userID conn; AtLookup m Finished], w)
                then [] else omap Marshal [m]))
  ∧ ((interleave order ([AtBind userID conn; AtLookup m Finished], w)).1
     = [Finished; Finished] →
     attempted conn
         (since w (interleave order ([AtBind userID conn; AtLookup m Finished], w)).2)
       ++ omap Marshal
            (queueOf (interleave order ([AtBind userID conn; AtLookup m Finished], w)).2
               userID)
     ≡ₚ omap Marshal (queueOf w userID)
          ++ (if lostAppend userID order
                   ([AtBind userID conn; AtLookup m Finished], w)
              then [] else omap Marshal [m])).
Proof.
  intros Hs Hn Hr.
  destruct (accounted_interleave userID conn m w order
              (AtBind userID conn) (AtLookup m Finished) w false Hr)
    as (h' & s' & Hpool & Ha).
  { split_and!; [by constructor|by constructor|by apply queuesSorted_lookup|done|].
    exists []. split; [by rewrite app_nil_r|].
    cbn [attempted omap list_omap handlerOwes senderOwes app]. done. }
  rewrite orb_false_l in Ha.
  destruct Ha as (_ & _ & _ & _ & events & Htr & Hp).
  rewrite (since_app _ _ events Htr). split.
  - by exists h', s'.
  - intros Hdone. rewrite Hdone in Hpool. injection Hpool as <- <-.
    cbn [handlerOwes senderOwes omap list_omap] in Hp. by rewrite app_nil_r in Hp.
Qed.

End Account.

(** bob's delivery looks alice up before she is bound and appends before
    her handler reads her queue: the message is written once, after the
    three queued before it. *)
Lemma delivery_overlapping_reconnect_witness :
  attempted 7
      (since (@run healthy backlog init)
         (@interleave healthy ([1; 0; 1] ++ replicate 15 0)
            ([AtBind "alice" 7; AtLookup hi Finished], @run healthy backlog init)).2)
    ++ omap (@Marshal healthy)
         (queueOf (@interleave healthy ([1; 0; 1] ++ replicate 15 0)
                     ([AtBind "alice" 7; AtLookup hi Finished],
                      @run healthy backlog init)).2 "alice")
  ≡ₚ [frameOf first; frameOf second; frameOf third; frameOf hi].
Proof.
  destruct (@delivery_overlapping_reconnect healthy "alice" 7 hi
              ([1; 0; 1] ++ replicate 15 0) (@run healthy backlog init))
    as [_ Hdone].
  - apply (@reachable_sorted healthy). by exists backlog.
  - vm_compute. reflexivity.
  - reflexivity.
  - etrans; [apply Hdone; vm_compute; reflexivity|].
    vm_compute. reflexivity.
Defined.

(** ** The queues under any interleaving *)

Section Sorted.
Context `{Outside}.

Lemma turn_sorted t w : queuesSorted w → queuesSorted (turn t w).2.
Proof.
  intros Hs. destruct t as [|msg next|msg next|conn msg next|u conn|u|u rest|u];
    cbn [turn]; try done.
  - by destruct (connections w !! Receiver msg).
  - cbn [snd]. apply queuesSorted_insert; [done|].
    apply Forall_app. split; [by apply queuesSorted_lookup|by constructor].
  - cbn [snd]. by destruct (Marshal msg).
  - by destruct rest.
  - cbn [snd]. by apply queuesSorted_insert.
Qed.

Lemma schedule_sorted pool i : queuesSorted pool.2 → queuesSorted (schedule pool i).2.
Proof.
  intros Hs. unfold schedule. destruct (pool.1 !! i) as [t|]; [|done].
  by apply turn_sorted.
Qed.

(** X1. Every pending queue holds only messages addressed to its owner.
    The empty maps of [main] are so, every step of a handler keeps it so,
    and so does every single statement of [sendMessage] and of the
    connection phase, whichever thread executes it and in whatever order
    the statements of the threads alternate. *)
Theorem queues_hold_own_messages :
  queuesSorted init
  ∧ (∀ acts w, queuesSorted w → queuesSorted (run acts w))
  ∧ (∀ order threads w,
       queuesSorted w → queuesSorted (interleave order (threads, w)).2).
Proof.
  split; [apply init_sorted|]. split; [intros acts w; apply run_sorted|].
  intros order threads w Hs.
  assert (∀ pool, queuesSorted pool.2 → queuesSorted (interleave order pool).2) as Hall.
  { induction order as [|i order IH]; intros pool Hp; [done|].
    change (interleave (i :: order) pool) with (interleave order (schedule pool i)).
    by apply IH, schedule_sorted. }
  by apply (Hall (threads, w)).
Qed.

End Sorted.

Lemma queues_hold_own_messages_witness :
  queuesSorted (@interleave healthy [1; 0; 0; 0; 0; 1]
                  ([AtBind "alice" 7; AtLookup hi Finished],
                   @run healthy backlog init)).2.
Proof.
  destruct (@queues_hold_own_messages healthy) as (_ & Hrun & Hany).
  apply Hany, Hrun, init_sorted.
Defined.

(** ** Which connection a delivery writes to *)

Section Aim.
Context `{Outside}.

(** X3. [sendMessage] writes to the connection that the registry held for
    the receiver when line 135 looked it up, and writes the encoding of its
    message, whatever other handlers have done to the world before the
    write of line 151. When the step of a handler runs with no other
    handler in between, that connection is the one the registry holds for
    the frame's receiver when the step ends. *)
Theorem writes_follow_the_lookup :
  (∀ msg next w1 w2 conn frame ok,
     Write conn frame ok
       ∈ since w2 (turn (turn (AtLookup msg next) w1).1 w2).2 →
     connections w1 !! Receiver msg = Some conn ∧ Marshal msg = Some frame)
  ∧ (∀ a w conn frame ok,
       queuesSorted w → Write conn frame ok ∈ since w (step w a) →
       ∃ userID, frameReceiver frame = Some userID
                 ∧ connections (step w a) !! userID = Some conn).
Proof.
  split; [|intros a w conn frame ok; apply step_writes_go_to_the_binding].
  intros msg next w1 w2 conn frame ok. cbn [turn].
  destruct (connections w1 !! Receiver msg) as [c|]; cbn [fst turn snd].
  - destruct (Marshal msg) as [f|].
    + erewrite since_app by done. intros Hin.
      apply list_elem_of_singleton in Hin. by injection Hin as -> -> _.
    + erewrite since_app by (by rewrite app_nil_r). intros Hin.
      by apply elem_of_nil in Hin.
  - erewrite since_app by (by rewrite app_nil_r). intros Hin.
    by apply elem_of_nil in Hin.
Qed.

End Aim.

(** hi is looked up while alice is bound to connection 7 and written after
    she has reconnected on 8: the write goes to 7. *)
Lemma writes_follow_the_lookup_witness :
  connections (@connect healthy "alice" 7 init) !! Receiver hi = Some 7
  ∧ @Marshal healthy hi = Some (frameOf hi).
Proof.
  destruct (@writes_follow_the_lookup healthy) as [Hlookup _].
  apply (Hlookup hi Finished (@connect healthy "alice" 7 init)
           (@connect healthy "alice" 8 (@connect healthy "alice" 7 init))
           7 (frameOf hi) true).
  vm_compute. apply list_elem_of_here.
Defined.
